(** * Quantum harmonic oscillator notebook (qho-plot.ipynb)

    A shallow embedding of the numerical core of the notebook: the Hermite
    polynomial generator [make_Hr], the normalisation constant [NORM_CONST],
    the energy level [get_E], the wavefunction evaluator [get_psi], the
    classical turning points [get_turning_points] and the sample grid [x];
    then the plotting part, as the sequence of calls it makes on the figure.

    Number model.  The notebook computes in Python [int] and IEEE binary64
    ([float], [numpy.float64]).  Integers are modelled as [Z]; binary64 values
    are idealised as real numbers [R], so rounding, overflow to [inf] and
    [nan] are outside this model.  For the notebook's own [N = 6] every
    polynomial coefficient is an integer far below 2^53, so the coefficient
    arithmetic of [make_Hr] is exact in binary64 as well.

    Python exceptions are modelled by the error monad [result]. *)

From Stdlib Require Import Reals Lra Lia ZArith.
From stdpp Require Import base list strings pretty.

Open Scope R_scope.

(** * Python runtime fragments *)

Inductive exn : Set :=
| IndexError   (* list index / assignment index out of range *)
| ValueError   (* math.factorial of a negative int *)
| TypeError.   (* arithmetic on, or call of, None *)

Inductive result (A : Type) : Type :=
| Ok (a : A)
| Raise (e : exn).
Arguments Ok {A} a.
Arguments Raise {A} e.

#[global] Instance result_ret : MRet result := fun A a => Ok a.
#[global] Instance result_bind : MBind result := fun A B f m =>
  match m with
  | Ok a => f a
  | Raise e => Raise e
  end.

Module Py.

(** [l[i]] on a Python list: a negative index counts from the end, and an
    index outside [-len, len) raises IndexError. *)
Definition norm_index {A} (l : list A) (i : Z) : Z :=
  if (i <? 0)%Z then (i + Z.of_nat (length l))%Z else i.

Definition getitem {A} (l : list A) (i : Z) : result A :=
  let j := norm_index l i in
  if (j <? 0)%Z then Raise IndexError
  else match l !! Z.to_nat j with
       | Some a => Ok a
       | None => Raise IndexError
       end.

(** [l[i] = v]: same index rule; the list keeps its length. *)
Definition setitem {A} (l : list A) (i : Z) (v : A) : result (list A) :=
  let j := norm_index l i in
  if (j <? 0)%Z then Raise IndexError
  else if (j <? Z.of_nat (length l))%Z then Ok (<[Z.to_nat j := v]> l)
  else Raise IndexError.

(** [[v] * k]: the empty list when [k <= 0]. *)
Definition list_repeat {A} (v : A) (k : Z) : list A :=
  replicate (Z.to_nat k) v.

(** [range(a, b)]: a, a+1, ..., b-1; empty when [b <= a]. *)
Definition range (a b : Z) : list Z := seqZ a (b - a).

(** [for n in ns: s = body(n, s)], stopping at the first exception. *)
Fixpoint for_ {S} (ns : list Z) (body : Z -> S -> result S) (s : S)
  : result S :=
  match ns with
  | [] => Ok s
  | n :: ns' => s' ← body n s; for_ ns' body s'
  end.

(** [math.factorial(n)] for an int [n]: ValueError when [n] is negative. *)
Definition math_factorial (n : Z) : result Z :=
  if (n <? 0)%Z then Raise ValueError
  else Ok (Z.of_nat (fact (Z.to_nat n))).

End Py.

(** * numpy fragments

    numpy is a library outside the repository; the operations the notebook
    calls are modelled after numpy's reference implementation
    (numpy/lib/polynomial.py, numpy/core/function_base.py).  Coefficient
    arrays are lists, highest degree first, as in [np.poly1d]. *)

Module np.

(** [np.trim_zeros(c, trim='f')]: drop the leading zeros. *)
Fixpoint trim_zeros (c : list R) : list R :=
  match c with
  | [] => []
  | a :: c' => if Req_dec_T a 0 then trim_zeros c' else a :: c'
  end.

Record poly1d : Type := mk_poly1d { coeffs : list R }.

(** [np.poly1d(c)]: leading zeros are trimmed, and the zero polynomial is
    stored as [[0.]]. *)
Definition poly1d_init (c : list R) : poly1d :=
  match trim_zeros c with
  | [] => mk_poly1d [0]
  | c' => mk_poly1d c'
  end.

(** [p.order]: the degree, [len(p.coeffs) - 1]. *)
Definition order (p : poly1d) : Z := (Z.of_nat (length (coeffs p)) - 1)%Z.

(** Element-wise sum of two arrays aligned at index 0, the longer tail
    kept (used only to accumulate the rows of a convolution). *)
Fixpoint ladd (a b : list R) : list R :=
  match a, b with
  | [], _ => b
  | _, [] => a
  | x :: a', y :: b' => (x + y) :: ladd a' b'
  end.

(** [np.convolve(a, v)] (mode 'full'): entry [k] is the sum of
    [a[m] * v[k - m]]; row [m] of the sum is [a[m] * v] shifted by [m]. *)
Fixpoint convolve (a v : list R) : list R :=
  match a with
  | [] => []
  | x :: a' => ladd (map (Rmult x) v) (0 :: convolve a' v)
  end.

(** [np.polymul(a1, a2)] on coefficient arrays: both are normalised by
    [poly1d], then convolved. *)
Definition polymul (a1 a2 : list R) : list R :=
  convolve (coeffs (poly1d_init a1)) (coeffs (poly1d_init a2)).

(** [np.polysub(a1, a2)] on coefficient arrays: the shorter array is padded
    with zeros in front, then the arrays are subtracted element-wise. *)
Definition polysub (a1 a2 : list R) : list R :=
  let diff := (Z.of_nat (length a2) - Z.of_nat (length a1))%Z in
  if (diff =? 0)%Z then zip_with Rminus a1 a2
  else if (0 <? diff)%Z
       then zip_with Rminus (replicate (Z.to_nat diff) 0 ++ a1) a2
       else zip_with Rminus a1 (replicate (Z.abs_nat diff) 0 ++ a2).

(** [poly1d.__mul__] with a poly1d operand:
    [poly1d(polymul(self.coeffs, other.coeffs))]. *)
Definition mul (p q : poly1d) : poly1d :=
  poly1d_init (polymul (coeffs p) (coeffs q)).

(** [poly1d.__rmul__] with a scalar on the left: [poly1d(other * coeffs)]. *)
Definition rmul (k : R) (p : poly1d) : poly1d :=
  poly1d_init (map (Rmult k) (coeffs p)).

(** [poly1d.__sub__]: [poly1d(polysub(self.coeffs, other.coeffs))]. *)
Definition sub (p q : poly1d) : poly1d :=
  poly1d_init (polysub (coeffs p) (coeffs q)).

(** [np.polyval(p, x)] at a scalar: Horner's rule,
    [y = 0; for pv in p: y = y * x + pv]. *)
Definition polyval (p : list R) (x : R) : R :=
  fold_left (fun y pv => y * x + pv) p 0.

(** [np.polyval(p, x)] at an array: the same loop, element-wise. *)
Definition polyval_arr (p : list R) (xs : list R) : list R :=
  fold_left (fun ys pv => map (fun t => t + pv) (zip_with Rmult ys xs))
            p (map (fun _ => 0) xs).

(** [poly1d.__call__]. *)
Definition call (p : poly1d) (x : R) : R := polyval (coeffs p) x.
Definition call_arr (p : poly1d) (xs : list R) : list R :=
  polyval_arr (coeffs p) xs.

(** [np.linspace(start, stop, num)] with the default [endpoint=True]:
    [arange(num) * step + start] with [step = (stop - start) / (num - 1)],
    and the last sample overwritten by [stop] when [num > 1].  (numpy
    computes [arange(num) / (num - 1) * (stop - start)] instead when the step
    is zero, which is the same real number.) *)
Definition linspace (start stop : R) (num : Z) : list R :=
  let div := (num - 1)%Z in
  let step := (stop - start) / IZR div in
  let y := map (fun i => IZR i * step + start) (seqZ 0 num) in
  if (1 <? num)%Z then <[Z.to_nat (num - 1) := stop]> y else y.

End np.

(** * The notebook *)

(** A slot of the list [Hr]: [None] until it is assigned a polynomial. *)
Inductive pyobj : Type :=
| PyNone
| PyPoly (p : np.poly1d).

(** Using a slot as a polynomial operand (or calling it): [None] raises. *)
Definition as_poly (o : pyobj) : result np.poly1d :=
  match o with
  | PyNone => Raise TypeError
  | PyPoly p => Ok p
  end.

(** [XPAD_FRAC = 1.3] *)
Definition XPAD_FRAC : R := 13 / 10.

(** [NORM_CONST = lambda n: 1./np.sqrt(np.sqrt(np.pi)*2**n*math.factorial(n))].
    [2**n] is an int for [n >= 0] and the float [1/2**(-n)] for [n < 0]
    ([powerRZ] covers both); [math.factorial(n)] is evaluated after it. *)
Definition NORM_CONST (n : Z) : result R :=
  let p := sqrt PI * powerRZ 2 n in
  f ← Py.math_factorial n;
  Ok (1 / sqrt (p * IZR f)).

(** [get_E = lambda n: n + 0.5] *)
Definition get_E (n : R) : R := n + 5 / 10.

(** [make_Hr()].  The source reads the module-level constant [N]; it is a
    parameter here.
<<
    Hr = [None] * (N + 1)
    Hr[0] = np.poly1d([1.,])
    Hr[1] = np.poly1d([2., 0.])
    for n in range(2, N+1):
        Hr[n] = Hr[1]*Hr[n-1] - 2*(n-1)*Hr[n-2]
    return Hr
>> *)
Definition make_Hr_body (n : Z) (Hr : list pyobj) : result (list pyobj) :=
  h1 ← Py.getitem Hr 1;
  hn1 ← Py.getitem Hr (n - 1);
  a ← (p ← as_poly h1; q ← as_poly hn1; Ok (np.mul p q));
  hn2 ← Py.getitem Hr (n - 2);
  b ← (q ← as_poly hn2; Ok (np.rmul (IZR (2 * (n - 1))) q));
  Py.setitem Hr n (PyPoly (np.sub a b)).

Definition make_Hr (N : Z) : result (list pyobj) :=
  let Hr := Py.list_repeat PyNone (N + 1) in
  Hr ← Py.setitem Hr 0 (PyPoly (np.poly1d_init [1]));
  Hr ← Py.setitem Hr 1 (PyPoly (np.poly1d_init [2; 0]));
  Py.for_ (Py.range 2 (N + 1)) make_Hr_body Hr.

(** [get_psi(n, x)] reads the module-level list [Hr = make_Hr()]; it is a
    parameter here.  Operands are evaluated left to right:
    [NORM_CONST(n)*Hr[n](x)*np.exp(-x*x/2.)].  Scalar [x]. *)
Definition get_psi (Hr : list pyobj) (n : Z) (x : R) : result R :=
  c ← NORM_CONST n;
  h ← Py.getitem Hr n;
  p ← as_poly h;
  Ok (c * np.call p x * exp (- x * x / 2)).

(** [get_psi(n, x)] on a grid [x] (an ndarray): every operation broadcasts. *)
Definition get_psi_grid (Hr : list pyobj) (n : Z) (xs : list R)
  : result (list R) :=
  c ← NORM_CONST n;
  h ← Py.getitem Hr n;
  p ← as_poly h;
  Ok (zip_with Rmult
        (map (Rmult c) (np.call_arr p xs))
        (map exp (map (fun t => t / 2) (zip_with Rmult (map Ropp xs) xs)))).

(** [get_turning_points(n)]:
<<
    xmax = np.sqrt(2. * get_E(n + 0.5))
    return -xmax, xmax
>>
    For [n >= -1] the argument of [np.sqrt] is not negative and [sqrt] is the
    real square root ([np.sqrt] of a negative number is [nan], which the
    number model leaves out). *)
Definition get_turning_points (n : Z) : R * R :=
  let xmax := sqrt (2 * get_E (IZR n + 5 / 10)) in
  (- xmax, xmax).

(** The module-level statements of the notebook that build the grid and set
    the axis limits, as functions of the constant [N]:
<<
    xmin, xmax = get_turning_points(N)
    zmin, zmax = XPAD_FRAC * xmin, XPAD_FRAC * xmax
    x = np.linspace(xmin, xmax, 500)
    ...
    ax.set_xlim(zmin, zmax)
>> *)
Definition x_grid (N : Z) : list R :=
  let '(xmin, xmax) := get_turning_points N in
  np.linspace xmin xmax 500.

Definition xlim (N : Z) : R * R :=
  let '(xmin, xmax) := get_turning_points N in
  (XPAD_FRAC * xmin, XPAD_FRAC * xmax).

(** The notebook's own configuration: [N = 6], [Hr = make_Hr()]. *)
Module Notebook.
Definition N : Z := 6.
Definition Hr : result (list pyobj) := make_Hr N.
Definition x : list R := x_grid N.
End Notebook.

(** * Reference objects used to state the properties *)

(** The Hermite coefficient sequences, highest degree first, written the way
    the recurrence reads on coefficients: [2x * c] shifts [c] one place and
    doubles it, and [2(n-1) * d] is aligned with it at the constant term. *)
Definition hermite_step (k : R) (c d : list R) : list R :=
  zip_with Rminus (map (Rmult 2) c ++ [0]) (0 :: 0 :: map (Rmult k) d).

Fixpoint hermite_coeffs (n : nat) : list R :=
  match n with
  | O => [1]
  | S m =>
      match m with
      | O => [2; 0]
      | S k => hermite_step (IZR (2 * Z.of_nat m)) (hermite_coeffs m)
                            (hermite_coeffs k)
      end
  end.

(** The polynomial objects the loop of [make_Hr] builds, by the same numpy
    operations. *)
Fixpoint Hpoly (n : nat) : np.poly1d :=
  match n with
  | O => np.poly1d_init [1]
  | S m =>
      match m with
      | O => np.poly1d_init [2; 0]
      | S k => np.sub (np.mul (np.poly1d_init [2; 0]) (Hpoly m))
                      (np.rmul (IZR (2 * Z.of_nat m)) (Hpoly k))
      end
  end.

(** Horner's rule started from an arbitrary accumulator. *)
Definition horner (x : R) (y : R) (p : list R) : R :=
  fold_left (fun y pv => y * x + pv) p y.

(** Loop invariant of [make_Hr]: the list has its [N + 1] slots, and every slot below
    [n] holds its polynomial. *)
Definition Hr_inv (N : Z) (n : Z) (Hr : list pyobj) : Prop :=
  length Hr = Z.to_nat (N + 1) /\
  forall i : nat, (Z.of_nat i < n)%Z -> Hr !! i = Some (PyPoly (Hpoly i)).

(** * The plotting part of the notebook

    matplotlib is a library outside the repository.  The figure is modelled
    by the sequence of calls the notebook makes on [ax] and [plt], each with
    the arguments it is given; what matplotlib draws from them is not
    modelled. *)

(** [SCALING = 0.7] *)
Definition SCALING : R := 7 / 10.

(** [COLOR]: ['navy'] if [PLOT_PROB], else ['cornflowerblue']. *)
Definition COLOR (PLOT_PROB : bool) : string :=
  if PLOT_PROB then "navy" else "cornflowerblue".

(** [get_potential(x)]: [x**2 / 2], at a scalar and broadcast over a grid. *)
Definition get_potential (x : R) : R := x ^ 2 / 2.

Definition get_potential_grid (xs : list R) : list R :=
  map (fun t => t / 2) (map (fun t => t ^ 2) xs).

(** The masks [f > 0.] and [f < 0.] of an array. *)
Definition gt0 (f : list R) : list bool :=
  map (fun t => if Rlt_dec 0 t then true else false) f.

Definition lt0 (f : list R) : list bool :=
  map (fun t => if Rlt_dec t 0 then true else false) f.

Inductive draw : Type :=
| Plot (x y : list R) (color : string) (linewidth : option R)
| FillBetween (x y1 : list R) (y2 : R) (where_ : list bool)
              (color : string) (alpha : R)
| Text (s : string) (x y : R) (va : string) (ha : option string)
| SetXlabel (s : string)
| SetXlim (lo hi : R)
| SetYlim (lo hi : R)
| SpineSetPosition (spine pos : string)
| SetYticks (ticks : list R)
| SpineSetVisible (spine : string) (visible : bool)
| Savefig (fname bbox_inches : string) (dpi : Z)
| Close.

(** [plot_func(ax, f, scaling, yoffset)]; the globals [x] and [COLOR] it
    reads are parameters.
<<
    ax.plot(x, f*scaling + yoffset, color=COLOR)
    ax.fill_between(x, f*scaling + yoffset, yoffset, f > 0.,
                    color=COLOR, alpha=0.5)
    ax.fill_between(x, f*scaling + yoffset, yoffset, f < 0.,
                    color=COLOR, alpha=0.5)
>> *)
Definition plot_func (x : list R) (color : string) (f : list R)
           (scaling yoffset : R) : list draw :=
  [ Plot x (map (fun t => t + yoffset) (map (fun t => t * scaling) f))
         color None;
    FillBetween x (map (fun t => t + yoffset) (map (fun t => t * scaling) f))
                yoffset (gt0 f) color (5 / 10);
    FillBetween x (map (fun t => t + yoffset) (map (fun t => t * scaling) f))
                yoffset (lt0 f) color (5 / 10) ].

(** The label strings, [str.format] filling in the decimal form of [n]. *)
Definition label_E (n : Z) : string :=
  "$E_{" +:+ pretty n +:+ "} = (" +:+ pretty n
         +:+ "+\frac{1}{2})\hbar\omega$".

Definition label_state (PLOT_PROB : bool) (n : Z) : string :=
  if PLOT_PROB then "$|\psi_{" +:+ pretty n +:+ "}|^2$"
  else "$\psi_{" +:+ pretty n +:+ "}$".

(** The calls of one iteration of the plotting loop, once [psi_n] has been
    evaluated:
<<
    E_n = get_E(n)
    if PLOT_PROB:
        plot_func(ax, psi_n**2, scaling=SCALING*1.5, yoffset=E_n)
    else:
        plot_func(ax, psi_n, scaling=SCALING, yoffset=E_n)
    ax.text(s=r'$E_{{{}}} = ({}+\frac{{1}}{{2}})\hbar\omega$'.format(n,n),
            x=xmax+0.2, y=E_n, va='center')
    if PLOT_PROB:
         ax.text(s=r'$|\psi_{{{}}}|^2$'.format(n), x=xmin-0.2, y=E_n,
                 va='center', ha='right')
    else:
         ax.text(s=r'$\psi_{{{}}}$'.format(n), x=xmin-0.2, y=E_n,
                 va='center', ha='right')
>> *)
Definition state_calls (PLOT_PROB : bool) (N : Z) (n : Z) (psi_n : list R)
  : list draw :=
  let '(xmin, xmax) := get_turning_points N in
  let x := x_grid N in
  let E_n := get_E (IZR n) in
  (if PLOT_PROB
   then plot_func x (COLOR PLOT_PROB) (map (fun t => t ^ 2) psi_n)
                  (SCALING * (15 / 10)) E_n
   else plot_func x (COLOR PLOT_PROB) psi_n SCALING E_n)
  ++ [ Text (label_E n) (xmax + 2 / 10) E_n "center" None;
       Text (label_state PLOT_PROB n) (xmin - 2 / 10) E_n "center"
            (Some "right") ].

(** The loop state: the calls made so far, and the loop variable [E_n],
    which is unbound ([None]) until the first iteration. *)
Definition plot_state_body (PLOT_PROB : bool) (N : Z) (Hr : list pyobj)
           (n : Z) (st : list draw * option R)
  : result (list draw * option R) :=
  psi_n ← get_psi_grid Hr n (x_grid N);
  Ok (st.1 ++ state_calls PLOT_PROB N n psi_n, Some (get_E (IZR n))).

(** From [V = get_potential(x)] to the end of the plotting loop:
<<
    V = get_potential(x)
    ax.plot(x, V, color='k', linewidth=1.5)
    for n in range(N+1):
        psi_n = get_psi(n, x)
        ...
>> *)
Definition plot_states (PLOT_PROB : bool) (N : Z) (Hr : list pyobj)
  : result (list draw * option R) :=
  let x := x_grid N in
  let V := get_potential_grid x in
  Py.for_ (Py.range 0 (N + 1)) (plot_state_body PLOT_PROB N Hr)
          ([Plot x V "k" (Some (15 / 10))], None).


(** Predicates on a call, used to state what the figure is made of. *)

(** A filled region does not reach below its baseline [y2]. *)
Definition fill_above (c : draw) : Prop :=
  match c with
  | FillBetween _ y1 y2 _ _ _ => Forall (fun y => y2 <= y) y1
  | _ => True
  end.

(** The arrays of a call have one entry per sample of a grid of [k]. *)
Definition shape_ok (k : nat) (c : draw) : Prop :=
  match c with
  | Plot x y _ _ => length x = k /\ length y = k
  | FillBetween x y1 _ w _ _ => length x = k /\ length y1 = k /\ length w = k
  | _ => True
  end.

(** A text is anchored strictly inside the rectangle of the axis limits. *)
Definition text_inside (xl yl : R * R) (c : draw) : Prop :=
  match c with
  | Text _ x y _ _ => xl.1 < x < xl.2 /\ yl.1 < y < yl.2
  | _ => True
  end.

(** * Further reference objects *)

(** The Hermite coefficient sequences over the integers. *)
Definition hermite_stepZ (k : Z) (c d : list Z) : list Z :=
  zip_with Z.sub (map (Z.mul 2) c ++ [0%Z]) (0%Z :: 0%Z :: map (Z.mul k) d).

Fixpoint hermite_coeffsZ (n : nat) : list Z :=
  match n with
  | O => [1%Z]
  | S m =>
      match m with
      | O => [2%Z; 0%Z]
      | S k => hermite_stepZ (2 * Z.of_nat m) (hermite_coeffsZ m)
                             (hermite_coeffsZ k)
      end
  end.

(** The value of the [n]-th Hermite polynomial, and of its first derivative
    [2n H_(n-1)]. *)
Definition Hval (n : nat) (x : R) : R := np.polyval (hermite_coeffs n) x.

Definition dHval (n : nat) (x : R) : R :=
  match n with
  | O => 0
  | S m => 2 * INR n * Hval m x
  end.

(** The second derivative [2n H_(n-1)'] of the [n]-th Hermite value. *)
Definition d2Hval (n : nat) (x : R) : R :=
  match n with
  | O => 0
  | S m => 2 * INR n * dHval m x
  end.

(** The Gaussian envelope [exp(-x*x/2)]. *)
Definition gauss (x : R) : R := exp (- x * x / 2).

(** The function [get_psi(n, .)] computes, and its first derivative. *)
Definition psi (n : nat) (x : R) : R :=
  1 / sqrt (sqrt PI * 2 ^ n * INR (fact n)) * Hval n x * exp (- x * x / 2).

Definition dpsi (n : nat) (x : R) : R :=
  1 / sqrt (sqrt PI * 2 ^ n * INR (fact n))
  * (dHval n x - x * Hval n x) * exp (- x * x / 2).

(** * Lemmas on the Python fragments *)

Lemma getitem_nat {A} (l : list A) (i : nat) (a : A) :
  l !! i = Some a -> Py.getitem l (Z.of_nat i) = Ok a.
Proof.
  intros E. unfold Py.getitem, Py.norm_index.
  destruct (Z.ltb_spec (Z.of_nat i) 0); [lia|].
  destruct (Z.ltb_spec (Z.of_nat i) 0); [lia|].
  now rewrite Nat2Z.id, E.
Qed.

Lemma getitem_Z {A} (l : list A) (i : Z) (a : A) :
  (0 <= i)%Z -> l !! Z.to_nat i = Some a -> Py.getitem l i = Ok a.
Proof.
  intros Hi E. rewrite <- (Z2Nat.id i Hi). now apply getitem_nat.
Qed.

Lemma getitem_ge {A} (l : list A) (i : Z) :
  (Z.of_nat (length l) <= i)%Z -> Py.getitem l i = Raise IndexError.
Proof.
  intros Hi. unfold Py.getitem, Py.norm_index.
  destruct (Z.ltb_spec i 0); [lia|].
  destruct (Z.ltb_spec i 0); [lia|].
  rewrite lookup_ge_None_2; [reflexivity | lia].
Qed.

Lemma setitem_Z {A} (l : list A) (i : Z) (v : A) :
  (0 <= i < Z.of_nat (length l))%Z ->
  Py.setitem l i v = Ok (<[Z.to_nat i := v]> l).
Proof.
  intros Hi. unfold Py.setitem, Py.norm_index.
  destruct (Z.ltb_spec i 0); [lia|].
  destruct (Z.ltb_spec i 0); [lia|].
  destruct (Z.ltb_spec i (Z.of_nat (length l))); [reflexivity | lia].
Qed.

Lemma setitem_ge {A} (l : list A) (i : Z) (v : A) :
  (Z.of_nat (length l) <= i)%Z -> Py.setitem l i v = Raise IndexError.
Proof.
  intros Hi. unfold Py.setitem, Py.norm_index.
  destruct (Z.ltb_spec i 0); [lia|].
  destruct (Z.ltb_spec i 0); [lia|].
  destruct (Z.ltb_spec i (Z.of_nat (length l))); [lia | reflexivity].
Qed.

(** Invariant rule for [for n in range(a, b)]: an invariant that every
    iteration re-establishes without raising holds at exit, and the loop
    returns. *)
Lemma for_range_inv {S} (I : Z -> S -> Prop) (body : Z -> S -> result S) :
  forall (k : nat) (a b : Z) (s : S),
    (b - a = Z.of_nat k)%Z ->
    I a s ->
    (forall n s0, (a <= n < b)%Z -> I n s0 ->
                  exists s1, body n s0 = Ok s1 /\ I (n + 1)%Z s1) ->
    exists s', Py.for_ (Py.range a b) body s = Ok s' /\ I b s'.
Proof.
  induction k as [|k IH]; intros a b s Hk Ha Hstep; unfold Py.range.
  - rewrite seqZ_nil by lia. exists s. split; [reflexivity|].
    now replace b with a by lia.
  - rewrite seqZ_cons by lia. cbn [Py.for_].
    destruct (Hstep a s ltac:(lia) Ha) as (s1 & E1 & I1).
    rewrite E1. cbn.
    replace (Z.pred (b - a)) with (b - Z.succ a)%Z by lia.
    apply (IH (Z.succ a) b s1); [lia | exact I1 |].
    intros n s0 Hn. apply Hstep. lia.
Qed.

(** * Lemmas on the numpy fragments *)

Lemma trim_zeros_head (a : R) (c : list R) :
  a <> 0 -> np.trim_zeros (a :: c) = a :: c.
Proof.
  intros Ha. cbn. destruct (Req_dec_T a 0) as [E|_]; [contradiction | reflexivity].
Qed.

Lemma poly1d_init_head (a : R) (c : list R) :
  a <> 0 -> np.poly1d_init (a :: c) = np.mk_poly1d (a :: c).
Proof.
  intros Ha. unfold np.poly1d_init. now rewrite trim_zeros_head.
Qed.

Lemma ladd_nil_r (a : list R) : np.ladd a [] = a.
Proof. destruct a; reflexivity. Qed.

Lemma map_mult0 (c : list R) : map (Rmult 0) c = replicate (length c) 0.
Proof.
  induction c as [|x c IH]; cbn; [reflexivity|].
  rewrite IH. f_equal. lra.
Qed.

Lemma ladd_shift_zeros (c : list R) :
  np.ladd (map (Rmult 2) c) (0 :: replicate (length c) 0)
  = map (Rmult 2) c ++ [0].
Proof.
  induction c as [|x c IH]; cbn; [reflexivity|].
  cbn in IH. rewrite IH. f_equal. lra.
Qed.

(** Multiplying by the array [[2., 0.]] of [Hr[1]] doubles every coefficient
    and appends a zero constant term. *)
Lemma convolve_2x (a : R) (c : list R) :
  np.convolve [2; 0] (a :: c) = map (Rmult 2) (a :: c) ++ [0].
Proof.
  cbn [np.convolve].
  assert (E : np.ladd (map (Rmult 0) (a :: c)) [0]
              = replicate (length (a :: c)) 0).
  { cbn. rewrite ladd_nil_r, map_mult0. f_equal. lra. }
  rewrite E. apply ladd_shift_zeros.
Qed.

Lemma polysub_short2 (a1 a2 : list R) :
  length a1 = S (S (length a2)) ->
  np.polysub a1 a2 = zip_with Rminus a1 (0 :: 0 :: a2).
Proof.
  intros L. unfold np.polysub. rewrite L.
  destruct (Z.eqb_spec (Z.of_nat (length a2) - Z.of_nat (S (S (length a2)))) 0);
    [lia|].
  destruct (Z.ltb_spec 0 (Z.of_nat (length a2) - Z.of_nat (S (S (length a2)))));
    [lia|].
  replace (Z.abs_nat _) with 2%nat by lia. reflexivity.
Qed.

Lemma polyval_horner (p : list R) (x : R) : np.polyval p x = horner x 0 p.
Proof. reflexivity. Qed.

Lemma horner_snoc (x y a : R) (p : list R) :
  horner x y (p ++ [a]) = horner x y p * x + a.
Proof. unfold horner. now rewrite fold_left_app. Qed.

Lemma horner_scale (x k y : R) (p : list R) :
  horner x (k * y) (map (Rmult k) p) = k * horner x y p.
Proof.
  revert y. induction p as [|a p IH]; intros y; cbn; [reflexivity|].
  replace (k * y * x + k * a) with (k * (y * x + a)) by ring.
  apply IH.
Qed.

Lemma horner_minus (x : R) (p q : list R) :
  length p = length q ->
  forall y z, horner x (y - z) (zip_with Rminus p q) = horner x y p - horner x z q.
Proof.
  revert q. induction p as [|a p IH]; intros [|b q] L y z; cbn in *;
    try discriminate; [reflexivity|].
  replace ((y - z) * x + (a - b)) with ((y * x + a) - (z * x + b)) by ring.
  apply IH. congruence.
Qed.

Lemma polyval_scale (k x : R) (p : list R) :
  np.polyval (map (Rmult k) p) x = k * np.polyval p x.
Proof.
  rewrite !polyval_horner. rewrite <- horner_scale. f_equal. ring.
Qed.

Lemma polyval_cons0 (x : R) (p : list R) :
  np.polyval (0 :: p) x = np.polyval p x.
Proof.
  unfold np.polyval. cbn. f_equal. ring.
Qed.

Lemma polyval_minus (x : R) (p q : list R) :
  length p = length q ->
  np.polyval (zip_with Rminus p q) x = np.polyval p x - np.polyval q x.
Proof.
  intros L. rewrite !polyval_horner. rewrite <- (horner_minus x p q L 0 0).
  f_equal. ring.
Qed.

(** The coefficient form of the recurrence step is the recurrence pointwise. *)
Lemma polyval_hermite_step (k x : R) (c d : list R) :
  length c = S (length d) ->
  np.polyval (hermite_step k c d) x
  = 2 * x * np.polyval c x - k * np.polyval d x.
Proof.
  intros L. unfold hermite_step.
  rewrite polyval_minus.
  - rewrite !polyval_cons0, polyval_scale.
    rewrite polyval_horner, horner_snoc, <- polyval_horner, polyval_scale. ring.
  - rewrite length_app. cbn. rewrite !length_map. lia.
Qed.

(** The array evaluation is the scalar evaluation at every sample. *)
Lemma polyval_arr_map (p xs : list R) :
  np.polyval_arr p xs = map (np.polyval p) xs.
Proof.
  unfold np.polyval_arr, np.polyval.
  assert (G : forall (ys : list R) (f : R -> R),
             ys = map f xs ->
             fold_left (fun ys pv => map (fun t => t + pv) (zip_with Rmult ys xs))
                       p ys
             = map (fun x => fold_left (fun y pv => y * x + pv) p (f x)) xs).
  { induction p as [|a p IH]; intros ys f ->; cbn; [reflexivity|].
    apply (IH _ (fun x => f x * x + a)).
    clear. induction xs as [|x xs IH]; cbn; [reflexivity | now rewrite IH]. }
  apply (G _ (fun _ => 0)). reflexivity.
Qed.

(** ** The poly1d operations act on values as polynomial arithmetic *)

Lemma horner_linear (x y : R) (p : list R) :
  horner x y p = y * x ^ length p + np.polyval p x.
Proof.
  rewrite polyval_horner. revert y.
  induction p as [|a p IH]; intros y; cbn [horner fold_left length pow].
  - unfold horner. cbn. ring.
  - change (horner x (y * x + a) p = y * (x * x ^ length p) + horner x (0 * x + a) p).
    rewrite (IH (y * x + a)), (IH (0 * x + a)). ring.
Qed.

Lemma polyval_zeros_app (x : R) (k : nat) (p : list R) :
  np.polyval (replicate k 0 ++ p) x = np.polyval p x.
Proof.
  induction k as [|k IH]; cbn [replicate app]; [reflexivity|].
  now rewrite polyval_cons0.
Qed.

Lemma polyval_trim_zeros (x : R) (p : list R) :
  np.polyval (np.trim_zeros p) x = np.polyval p x.
Proof.
  induction p as [|a p IH]; cbn [np.trim_zeros]; [reflexivity|].
  destruct (Req_dec_T a 0) as [->|_]; [|reflexivity].
  now rewrite polyval_cons0.
Qed.

Lemma call_poly1d_init (x : R) (c : list R) :
  np.call (np.poly1d_init c) x = np.polyval c x.
Proof.
  unfold np.call, np.poly1d_init. rewrite <- (polyval_trim_zeros x c).
  destruct (np.trim_zeros c); cbn [np.coeffs]; [|reflexivity].
  unfold np.polyval. cbn. ring.
Qed.

Lemma poly1d_init_nonempty (c : list R) :
  (0 < length (np.coeffs (np.poly1d_init c)))%nat.
Proof.
  unfold np.poly1d_init. destruct (np.trim_zeros c); cbn; lia.
Qed.

Lemma horner_ladd (x : R) (a b : list R) :
  forall y z,
    horner x (y + z) (np.ladd a b)
    = horner x y a * x ^ (length b - length a)
      + horner x z b * x ^ (length a - length b).
Proof.
  revert b. induction a as [|a0 a IH]; intros [|b0 b] y z.
  - unfold horner. cbn. ring.
  - cbn [np.ladd length Nat.sub]. rewrite (horner_linear x (y + z)),
      (horner_linear x z). unfold horner. cbn [fold_left length pow]. ring.
  - cbn [np.ladd length Nat.sub]. rewrite (horner_linear x (y + z)),
      (horner_linear x y). unfold horner. cbn [fold_left length pow]. ring.
  - cbn [np.ladd length Nat.sub].
    change (horner x (y + z) ((a0 + b0) :: np.ladd a b))
      with (horner x ((y + z) * x + (a0 + b0)) (np.ladd a b)).
    change (horner x y (a0 :: a)) with (horner x (y * x + a0) a).
    change (horner x z (b0 :: b)) with (horner x (z * x + b0) b).
    rewrite <- IH. f_equal. ring.
Qed.

Lemma polyval_ladd (x : R) (a b : list R) :
  np.polyval (np.ladd a b) x
  = np.polyval a x * x ^ (length b - length a)
    + np.polyval b x * x ^ (length a - length b).
Proof.
  rewrite !polyval_horner, <- horner_ladd. f_equal. ring.
Qed.

Lemma convolve_length (a v : list R) :
  (0 < length a)%nat -> (0 < length v)%nat ->
  length (np.convolve a v) = (length a + length v - 1)%nat.
Proof.
  intros La Lv. induction a as [|a0 a IH]; [cbn in La; lia|].
  cbn [np.convolve].
  assert (G : forall p q : list R,
             length (np.ladd p q) = Nat.max (length p) (length q)).
  { induction p as [|p0 p IHp]; intros [|q0 q]; cbn; auto. }
  rewrite G, length_map. destruct a as [|a1 a].
  - cbn. lia.
  - cbn [length] in *. rewrite IH by lia. lia.
Qed.

(** [np.convolve] multiplies the values of the two polynomials. *)
Lemma polyval_convolve (x : R) (a v : list R) :
  (0 < length v)%nat ->
  np.polyval (np.convolve a v) x = np.polyval a x * np.polyval v x.
Proof.
  intros Lv. induction a as [|a0 a IH].
  - unfold np.polyval. cbn. ring.
  - cbn [np.convolve]. rewrite polyval_ladd, polyval_cons0, polyval_scale, IH.
    rewrite length_map. cbn [length].
    rewrite (polyval_horner (a0 :: a)).
    change (horner x 0 (a0 :: a)) with (horner x (0 * x + a0) a).
    rewrite horner_linear.
    destruct a as [|a1 a].
    + cbn [np.convolve length pow].
      replace (1 - length v)%nat with 0%nat by lia.
      change (np.polyval [] x) with 0. ring.
    + rewrite convolve_length by (cbn; lia).
      replace (S (length (a1 :: a) + length v - 1) - length v)%nat
        with (length (a1 :: a)) by (cbn; lia).
      replace (length v - S (length (a1 :: a) + length v - 1))%nat
        with 0%nat by (cbn; lia).
      cbn [pow]. ring.
Qed.

Lemma call_mul (x : R) (p q : np.poly1d) :
  np.call (np.mul p q) x = np.call p x * np.call q x.
Proof.
  unfold np.mul, np.polymul. rewrite call_poly1d_init.
  rewrite polyval_convolve by apply poly1d_init_nonempty.
  fold (np.call (np.poly1d_init (np.coeffs p)) x).
  fold (np.call (np.poly1d_init (np.coeffs q)) x).
  now rewrite !call_poly1d_init.
Qed.

Lemma call_rmul (x k : R) (p : np.poly1d) :
  np.call (np.rmul k p) x = k * np.call p x.
Proof.
  unfold np.rmul. rewrite call_poly1d_init. apply polyval_scale.
Qed.

Lemma call_sub (x : R) (p q : np.poly1d) :
  np.call (np.sub p q) x = np.call p x - np.call q x.
Proof.
  unfold np.sub. rewrite call_poly1d_init. unfold np.polysub, np.call.
  destruct (Z.eqb_spec (Z.of_nat (length (np.coeffs q))
                        - Z.of_nat (length (np.coeffs p))) 0).
  - apply polyval_minus. lia.
  - destruct (Z.ltb_spec 0 (Z.of_nat (length (np.coeffs q))
                            - Z.of_nat (length (np.coeffs p)))).
    + rewrite polyval_minus, polyval_zeros_app; [reflexivity|].
      rewrite length_app, length_replicate. lia.
    + rewrite polyval_minus, polyval_zeros_app; [reflexivity|].
      rewrite length_app, length_replicate. lia.
Qed.

(** * The Hermite coefficient sequences *)

(** Induction two steps at a time, as the recurrence needs. *)
Lemma pair_induction (P : nat -> Prop) :
  P 0%nat -> P 1%nat -> (forall n, P n -> P (S n) -> P (S (S n))) ->
  forall n, P n.
Proof.
  intros H0 H1 Hstep n.
  enough (P n /\ P (S n)) by tauto.
  induction n as [|n [IHn IHSn]]; auto.
Qed.

Lemma hermite_coeffs_SS (n : nat) :
  hermite_coeffs (S (S n))
  = hermite_step (IZR (2 * Z.of_nat (S n))) (hermite_coeffs (S n))
                 (hermite_coeffs n).
Proof. reflexivity. Qed.

(** Shape: [n + 1] coefficients, the first of which is [2^n]. *)
Lemma hermite_coeffs_shape (n : nat) :
  exists t, hermite_coeffs n = 2 ^ n :: t /\ length t = n.
Proof.
  induction n as [| |n (t0 & E0 & L0) (t1 & E1 & L1)] using pair_induction.
  - exists []. split; [cbn; f_equal; lra | reflexivity].
  - exists [0]. split; [cbn; f_equal; lra | reflexivity].
  - rewrite hermite_coeffs_SS, E1, E0. unfold hermite_step.
    eexists. split.
    + cbn [map app zip_with]. f_equal. cbn [pow]. lra.
    + rewrite length_zip_with, length_app. cbn. rewrite !length_map. lia.
Qed.

Lemma hermite_coeffs_length (n : nat) : length (hermite_coeffs n) = S n.
Proof.
  destruct (hermite_coeffs_shape n) as (t & -> & L). cbn. now rewrite L.
Qed.

Lemma pow2_neq0 (n : nat) : 2 ^ n <> 0.
Proof. apply pow_nonzero. lra. Qed.

(** The numpy operations of one loop iteration, on arrays with nonzero
    leading coefficients, compute [hermite_step]. *)
Lemma step_coeffs (k a b : R) (c d : list R) :
  a <> 0 -> k * b <> 0 -> length c = S (length d) ->
  np.sub (np.mul (np.poly1d_init [2; 0]) (np.mk_poly1d (a :: c)))
         (np.rmul k (np.mk_poly1d (b :: d)))
  = np.mk_poly1d (hermite_step k (a :: c) (b :: d)).
Proof.
  intros Ha Hb L.
  rewrite poly1d_init_head by lra.
  unfold np.sub, np.mul, np.polymul, np.rmul. cbn [np.coeffs].
  rewrite (poly1d_init_head 2), (poly1d_init_head a) by first [lra | assumption].
  cbn [np.coeffs]. rewrite convolve_2x.
  cbn [map app]. rewrite !poly1d_init_head by first [lra | assumption].
  cbn [np.coeffs]. rewrite polysub_short2.
  - unfold hermite_step. cbn [map app zip_with].
    rewrite poly1d_init_head by lra. reflexivity.
  - cbn. rewrite length_app, !length_map. cbn. lia.
Qed.

(** The objects built by the numpy operations carry exactly the Hermite
    coefficient sequences. *)
Lemma Hpoly_coeffs (n : nat) : Hpoly n = np.mk_poly1d (hermite_coeffs n).
Proof.
  induction n as [| |n IH0 IH1] using pair_induction.
  - cbn. apply poly1d_init_head. lra.
  - cbn. apply poly1d_init_head. lra.
  - change (Hpoly (S (S n)))
      with (np.sub (np.mul (np.poly1d_init [2; 0]) (Hpoly (S n)))
                   (np.rmul (IZR (2 * Z.of_nat (S n))) (Hpoly n))).
    rewrite IH0, IH1, hermite_coeffs_SS.
    destruct (hermite_coeffs_shape n) as (t0 & E0 & L0).
    destruct (hermite_coeffs_shape (S n)) as (t1 & E1 & L1).
    rewrite E0, E1. apply step_coeffs.
    + apply pow2_neq0.
    + apply Rmult_integral_contrapositive_currified; [|apply pow2_neq0].
      apply not_0_IZR. lia.
    + lia.
Qed.

(** * The loop of [make_Hr] *)

Lemma make_Hr_body_inv (N n : Z) (Hr : list pyobj) :
  (2 <= n < N + 1)%Z -> Hr_inv N n Hr ->
  exists Hr', make_Hr_body n Hr = Ok Hr' /\ Hr_inv N (n + 1) Hr'.
Proof.
  intros Hn [L I]. unfold make_Hr_body.
  rewrite (getitem_Z Hr 1 (PyPoly (Hpoly 1))) by (try apply (I 1%nat); lia).
  cbn [mbind result_bind as_poly].
  rewrite (getitem_Z Hr (n - 1) (PyPoly (Hpoly (Z.to_nat (n - 1)))))
    by (try apply I; lia).
  cbn [mbind result_bind as_poly].
  rewrite (getitem_Z Hr (n - 2) (PyPoly (Hpoly (Z.to_nat (n - 2)))))
    by (try apply I; lia).
  cbn [mbind result_bind as_poly].
  rewrite setitem_Z by lia.
  eexists. split; [reflexivity|]. split.
  - rewrite length_insert. exact L.
  - intros i Hi. destruct (decide (i = Z.to_nat n)) as [->|Ne].
    + rewrite list_lookup_insert_eq by lia. do 2 f_equal.
      replace (Z.to_nat n) with (S (S (Z.to_nat (n - 2)))) by lia.
      cbn [Hpoly].
      replace (Z.to_nat (n - 1)) with (S (Z.to_nat (n - 2))) by lia.
      do 3 f_equal. lia.
    + rewrite list_lookup_insert_ne by congruence. apply I. lia.
Qed.

(** [make_Hr] returns for every [N >= 1], and the list it returns holds
    [Hpoly 0 .. Hpoly N]. *)
Lemma make_Hr_spec (N : Z) :
  (1 <= N)%Z ->
  make_Hr N = Ok ((fun i => PyPoly (Hpoly i)) <$> seq 0 (Z.to_nat (N + 1))).
Proof.
  intros HN. unfold make_Hr, Py.list_repeat.
  rewrite setitem_Z by (rewrite length_replicate; lia).
  cbn [mbind result_bind].
  rewrite setitem_Z by (rewrite length_insert, length_replicate; lia).
  cbn [mbind result_bind].
  destruct (for_range_inv (Hr_inv N) make_Hr_body (Z.to_nat (N - 1)) 2 (N + 1)
              (<[Z.to_nat 1 := PyPoly (np.poly1d_init [2; 0])]>
                 (<[Z.to_nat 0 := PyPoly (np.poly1d_init [1])]>
                    (replicate (Z.to_nat (N + 1)) PyNone))))
    as (Hr & E & L & I).
  - lia.
  - split.
    + now rewrite !length_insert, length_replicate.
    + intros [|[|i]] Hi; [| |lia].
      * rewrite list_lookup_insert_ne by discriminate.
        rewrite list_lookup_insert_eq; [reflexivity|].
        rewrite length_replicate. lia.
      * rewrite list_lookup_insert_eq; [reflexivity|].
        rewrite length_insert, length_replicate. lia.
  - intros n s0 Hn. now apply make_Hr_body_inv.
  - rewrite E. f_equal. apply list_eq. intros i.
    destruct (decide (i < Z.to_nat (N + 1))%nat) as [Lt|Ge].
    + rewrite I by lia. rewrite list_lookup_fmap, lookup_seq_lt by lia.
      reflexivity.
    + rewrite !lookup_ge_None_2; [reflexivity | |lia].
      rewrite length_fmap, length_seq. lia.
Qed.

(** With [N <= 0] the list has at most one slot and one of the two initial
    assignments raises. *)
Lemma make_Hr_raises (N : Z) : (N <= 0)%Z -> make_Hr N = Raise IndexError.
Proof.
  intros HN. unfold make_Hr, Py.list_repeat.
  destruct (Z.eq_dec N 0%Z) as [->|Ne].
  - reflexivity.
  - replace (Z.to_nat (N + 1)) with 0%nat by lia. reflexivity.
Qed.

(** A returned family has [N >= 1] and is the list of [Hpoly 0 .. Hpoly N]. *)
Lemma make_Hr_inv (N : Z) (Hr : list pyobj) :
  make_Hr N = Ok Hr ->
  (1 <= N)%Z /\ Hr = (fun i => PyPoly (Hpoly i)) <$> seq 0 (Z.to_nat (N + 1)).
Proof.
  intros E. destruct (Z_le_gt_dec N 0) as [Le|Gt].
  - rewrite make_Hr_raises in E by assumption. discriminate.
  - split; [lia|]. rewrite make_Hr_spec in E by lia. congruence.
Qed.

Lemma family_getitem (N n : Z) :
  (0 <= n <= N)%Z ->
  Py.getitem ((fun i => PyPoly (Hpoly i)) <$> seq 0 (Z.to_nat (N + 1))) n
  = Ok (PyPoly (np.mk_poly1d (hermite_coeffs (Z.to_nat n)))).
Proof.
  intros Hn. apply getitem_Z; [lia|].
  rewrite list_lookup_fmap, lookup_seq_lt by lia. cbn.
  now rewrite Hpoly_coeffs.
Qed.

Lemma family_length (N : Z) :
  length ((fun i => PyPoly (Hpoly i)) <$> seq 0 (Z.to_nat (N + 1)))
  = Z.to_nat (N + 1).
Proof. now rewrite length_fmap, length_seq. Qed.

(** * The properties of the polynomial family *)

(** C1.  The family returned by [make_Hr] satisfies the Hermite recurrence:
    slot 0 is the constant polynomial 1 (coefficients [[1]]), slot 1 is 2x
    (coefficients [[2; 0]]), and for [2 <= n <= N] the coefficient sequence of
    slot [n] is [2x * family[n-1] - 2(n-1) * family[n-2]] computed on the
    coefficient sequences, hence also pointwise at every [x]. *)
Theorem make_Hr_recurrence (N : Z) :
  (1 <= N)%Z ->
  exists Hr,
    make_Hr N = Ok Hr /\
    Py.getitem Hr 0 = Ok (PyPoly (np.mk_poly1d [1])) /\
    Py.getitem Hr 1 = Ok (PyPoly (np.mk_poly1d [2; 0])) /\
    forall n, (2 <= n <= N)%Z ->
      exists c d,
        Py.getitem Hr (n - 1) = Ok (PyPoly (np.mk_poly1d c)) /\
        Py.getitem Hr (n - 2) = Ok (PyPoly (np.mk_poly1d d)) /\
        Py.getitem Hr n
        = Ok (PyPoly (np.mk_poly1d (hermite_step (2 * (IZR n - 1)) c d))) /\
        forall x,
          np.polyval (hermite_step (2 * (IZR n - 1)) c d) x
          = 2 * x * np.polyval c x - 2 * (IZR n - 1) * np.polyval d x.
Proof.
  intros HN. eexists. split; [apply make_Hr_spec; exact HN|].
  split; [apply (family_getitem N 0); lia|].
  split; [apply (family_getitem N 1); lia|].
  intros n Hn.
  exists (hermite_coeffs (Z.to_nat (n - 1))), (hermite_coeffs (Z.to_nat (n - 2))).
  split; [apply family_getitem; lia|].
  split; [apply family_getitem; lia|].
  split.
  - rewrite family_getitem by lia. do 3 f_equal.
    replace (Z.to_nat n) with (S (S (Z.to_nat (n - 2)))) by lia.
    rewrite hermite_coeffs_SS.
    replace (Z.to_nat (n - 1)) with (S (Z.to_nat (n - 2))) by lia.
    f_equal. rewrite mult_IZR, <- Z2Nat.inj_succ, Z2Nat.id by lia.
    rewrite succ_IZR, minus_IZR. lra.
  - intros x. apply polyval_hermite_step.
    rewrite !hermite_coeffs_length. lia.
Qed.

Lemma make_Hr_recurrence_witness :
  exists Hr,
    make_Hr 6 = Ok Hr /\
    Py.getitem Hr 0 = Ok (PyPoly (np.mk_poly1d [1])) /\
    Py.getitem Hr 1 = Ok (PyPoly (np.mk_poly1d [2; 0])) /\
    forall n, (2 <= n <= 6)%Z ->
      exists c d,
        Py.getitem Hr (n - 1) = Ok (PyPoly (np.mk_poly1d c)) /\
        Py.getitem Hr (n - 2) = Ok (PyPoly (np.mk_poly1d d)) /\
        Py.getitem Hr n
        = Ok (PyPoly (np.mk_poly1d (hermite_step (2 * (IZR n - 1)) c d))) /\
        forall x,
          np.polyval (hermite_step (2 * (IZR n - 1)) c d) x
          = 2 * x * np.polyval c x - 2 * (IZR n - 1) * np.polyval d x.
Proof. apply (make_Hr_recurrence 6). lia. Defined.

(** C2.  Every member [family[n]], [0 <= n <= N], of the family returned by
    [make_Hr] has exact degree [n]: its coefficient array has [n + 1] entries
    and the leading one is [2^n], which is not zero. *)
Theorem make_Hr_degree (N : Z) :
  (1 <= N)%Z ->
  exists Hr,
    make_Hr N = Ok Hr /\
    forall n, (0 <= n <= N)%Z ->
      exists p t,
        Py.getitem Hr n = Ok (PyPoly p) /\
        np.order p = n /\
        np.coeffs p = 2 ^ Z.to_nat n :: t /\
        2 ^ Z.to_nat n <> 0.
Proof.
  intros HN. eexists. split; [apply make_Hr_spec; exact HN|].
  intros n Hn.
  destruct (hermite_coeffs_shape (Z.to_nat n)) as (t & E & L).
  exists (np.mk_poly1d (hermite_coeffs (Z.to_nat n))), t.
  split; [apply family_getitem; exact Hn|].
  split; [|split; [exact E | apply pow2_neq0]].
  unfold np.order. cbn [np.coeffs]. rewrite hermite_coeffs_length. lia.
Qed.

Lemma make_Hr_degree_witness :
  exists Hr,
    make_Hr 6 = Ok Hr /\
    forall n, (0 <= n <= 6)%Z ->
      exists p t,
        Py.getitem Hr n = Ok (PyPoly p) /\
        np.order p = n /\
        np.coeffs p = 2 ^ Z.to_nat n :: t /\
        2 ^ Z.to_nat n <> 0.
Proof. apply (make_Hr_degree 6). lia. Defined.

Lemma hermite_coeffs_2 : hermite_coeffs 2 = [4; 0; -2].
Proof.
  cbn [hermite_coeffs hermite_step map app zip_with].
  change (2 * Z.of_nat 1)%Z with 2%Z.
  repeat (f_equal; try lra).
Qed.

Lemma hermite_coeffs_3 : hermite_coeffs 3 = [8; 0; -12; 0].
Proof.
  rewrite hermite_coeffs_SS, hermite_coeffs_2.
  cbn [hermite_coeffs hermite_step map app zip_with].
  change (2 * Z.of_nat 2)%Z with 4%Z.
  repeat (f_equal; try lra).
Qed.

(** C8.  The generated family has the known closed forms at low degree:
    [family[2]] is [4x^2 - 2] (coefficients [[4; 0; -2]]) and [family[3]] is
    [8x^3 - 12x] (coefficients [[8; 0; -12; 0]]), hence at every [x]. *)
Theorem make_Hr_closed_forms (N : Z) :
  (1 <= N)%Z ->
  exists Hr,
    make_Hr N = Ok Hr /\
    ((2 <= N)%Z ->
     Py.getitem Hr 2 = Ok (PyPoly (np.mk_poly1d [4; 0; -2])) /\
     forall x, np.polyval [4; 0; -2] x = 4 * x ^ 2 - 2) /\
    ((3 <= N)%Z ->
     Py.getitem Hr 3 = Ok (PyPoly (np.mk_poly1d [8; 0; -12; 0])) /\
     forall x, np.polyval [8; 0; -12; 0] x = 8 * x ^ 3 - 12 * x).
Proof.
  intros HN. eexists. split; [apply make_Hr_spec; exact HN|].
  split; intros HN'; (split; [|intros x; unfold np.polyval; cbn; ring]).
  - rewrite <- hermite_coeffs_2. apply (family_getitem N 2). lia.
  - rewrite <- hermite_coeffs_3. apply (family_getitem N 3). lia.
Qed.

Lemma make_Hr_closed_forms_witness :
  exists Hr,
    make_Hr 6 = Ok Hr /\
    (Py.getitem Hr 2 = Ok (PyPoly (np.mk_poly1d [4; 0; -2])) /\
     forall x, np.polyval [4; 0; -2] x = 4 * x ^ 2 - 2) /\
    (Py.getitem Hr 3 = Ok (PyPoly (np.mk_poly1d [8; 0; -12; 0])) /\
     forall x, np.polyval [8; 0; -12; 0] x = 8 * x ^ 3 - 12 * x).
Proof.
  destruct (make_Hr_closed_forms 6 ltac:(lia)) as (Hr & E & H2 & H3).
  exists Hr. split; [exact E|]. split; [apply H2 | apply H3]; lia.
Defined.

(** * Energy levels and turning points *)

(** C9.  [get_E(n)] is [n + 1/2] for every quantum number [n]; in particular
    [get_E(0) = 0.5] and [get_E(3) = 3.5]. *)
Theorem get_E_half :
  (forall n : Z, get_E (IZR n) = IZR n + 1 / 2) /\
  get_E 0 = 5 / 10 /\
  get_E 3 = 35 / 10.
Proof.
  unfold get_E. repeat split; intros; lra.
Qed.

Lemma sqrt2_neq_1 : sqrt 2 <> 1.
Proof.
  intros E. pose proof (sqrt_sqrt 2 ltac:(lra)) as S. rewrite E in S. lra.
Qed.

(** [get_turning_points(n)] hands [n + 0.5] to [get_E], which adds its own
    [0.5]: the result is [sqrt(2 (n + 1))], not [sqrt(2 E_n)]. *)
Lemma get_turning_points_value (n : Z) :
  get_turning_points n
  = (- sqrt (2 * (get_E (IZR n) + 1 / 2)), sqrt (2 * (get_E (IZR n) + 1 / 2))).
Proof.
  unfold get_turning_points, get_E.
  replace (2 * (IZR n + 5 / 10 + 5 / 10)) with (2 * (IZR n + 5 / 10 + 1 / 2))
    by lra.
  reflexivity.
Qed.

(** C3, at the ground state.  [get_turning_points(0)] returns
    [(-sqrt 2, sqrt 2)], whereas [sqrt(2 E_0) = sqrt(2 * get_E(0)) = 1]; the
    two differ. *)
Theorem get_turning_points_0 :
  get_turning_points 0 = (- sqrt 2, sqrt 2) /\
  sqrt (2 * get_E 0) = 1 /\
  get_turning_points 0 <> (- sqrt (2 * get_E 0), sqrt (2 * get_E 0)).
Proof.
  assert (E1 : get_turning_points 0 = (- sqrt 2, sqrt 2)).
  { unfold get_turning_points, get_E.
    replace (2 * (0 + 5 / 10 + 5 / 10)) with 2 by lra. reflexivity. }
  assert (E2 : sqrt (2 * get_E 0) = 1).
  { unfold get_E. replace (2 * (0 + 5 / 10)) with 1 by lra. apply sqrt_1. }
  repeat split; [exact E1 | exact E2 |].
  rewrite E1, E2. intros E. injection E as _ E. now apply sqrt2_neq_1.
Qed.

(** * The wavefunction evaluator *)

Lemma NORM_CONST_nonneg (n : Z) :
  (0 <= n)%Z ->
  NORM_CONST n
  = Ok (1 / sqrt (sqrt PI * 2 ^ Z.to_nat n * INR (fact (Z.to_nat n)))).
Proof.
  intros Hn. unfold NORM_CONST, Py.math_factorial.
  destruct (Z.ltb_spec n 0); [lia|]. cbn [mbind result_bind].
  rewrite <- INR_IZR_INZ, pow_powerRZ, Z2Nat.id by lia. reflexivity.
Qed.

Lemma NORM_CONST_negative (n : Z) :
  (n < 0)%Z -> NORM_CONST n = Raise ValueError.
Proof.
  intros Hn. unfold NORM_CONST, Py.math_factorial.
  destruct (Z.ltb_spec n 0); [reflexivity | lia].
Qed.

(** The broadcast expression of [get_psi] is the scalar expression at every
    sample. *)
Lemma psi_broadcast (c : R) (p : np.poly1d) (xs : list R) :
  zip_with Rmult
    (map (Rmult c) (np.call_arr p xs))
    (map exp (map (fun t => t / 2) (zip_with Rmult (map Ropp xs) xs)))
  = map (fun x => c * np.call p x * exp (- x * x / 2)) xs.
Proof.
  unfold np.call_arr, np.call. rewrite polyval_arr_map.
  induction xs as [|x xs IH]; cbn; [reflexivity | now rewrite IH].
Qed.

Lemma get_psi_grid_map (Hr : list pyobj) (n : Z) (xs : list R) (c : R)
      (p : np.poly1d) :
  NORM_CONST n = Ok c -> Py.getitem Hr n = Ok (PyPoly p) ->
  get_psi_grid Hr n xs
  = Ok (map (fun x => c * np.call p x * exp (- x * x / 2)) xs).
Proof.
  intros Ec Ep. unfold get_psi_grid. rewrite Ec, Ep.
  cbn [mbind result_bind as_poly]. now rewrite psi_broadcast.
Qed.

(** C4.  For [0 <= n <= N], [get_psi(n, x)] is
    [N_n * H_n(x) * exp(-x^2/2)] with [N_n = 1/sqrt(sqrt(pi) * 2^n * n!)] and
    [H_n = family[n]], the polynomial [make_Hr] stored in slot [n]; on a grid
    this holds at every grid point. *)
Theorem get_psi_formula (N : Z) :
  (1 <= N)%Z ->
  exists Hr,
    make_Hr N = Ok Hr /\
    forall n, (0 <= n <= N)%Z ->
      exists Hn,
        Py.getitem Hr n = Ok (PyPoly Hn) /\
        let Nn := 1 / sqrt (sqrt PI * 2 ^ Z.to_nat n * INR (fact (Z.to_nat n))) in
        (forall x,
            get_psi Hr n x = Ok (Nn * np.call Hn x * exp (- (x ^ 2) / 2))) /\
        (forall xs,
            get_psi_grid Hr n xs
            = Ok (map (fun x => Nn * np.call Hn x * exp (- (x ^ 2) / 2)) xs)).
Proof.
  intros HN. eexists. split; [apply make_Hr_spec; exact HN|].
  intros n Hn. eexists. split; [apply family_getitem; exact Hn|].
  assert (Ex : forall x, - x * x / 2 = - (x ^ 2) / 2) by (intros; field).
  split.
  - intros x. unfold get_psi.
    rewrite NORM_CONST_nonneg, family_getitem by lia.
    cbn [mbind result_bind as_poly]. now rewrite Ex.
  - intros xs.
    rewrite (get_psi_grid_map _ n xs _ _ (NORM_CONST_nonneg n ltac:(lia))
               (family_getitem N n Hn)).
    f_equal. apply map_ext. intros x. now rewrite Ex.
Qed.

Lemma get_psi_formula_witness :
  exists Hr,
    make_Hr 6 = Ok Hr /\
    forall n, (0 <= n <= 6)%Z ->
      exists Hn,
        Py.getitem Hr n = Ok (PyPoly Hn) /\
        let Nn := 1 / sqrt (sqrt PI * 2 ^ Z.to_nat n * INR (fact (Z.to_nat n))) in
        (forall x,
            get_psi Hr n x = Ok (Nn * np.call Hn x * exp (- (x ^ 2) / 2))) /\
        (forall xs,
            get_psi_grid Hr n xs
            = Ok (map (fun x => Nn * np.call Hn x * exp (- (x ^ 2) / 2)) xs)).
Proof. apply (get_psi_formula 6). lia. Defined.

Lemma quarter_power_PI : Rpower PI (- (1 / 4)) = / sqrt (sqrt PI).
Proof.
  rewrite Rpower_Ropp. f_equal.
  replace (1 / 4) with (/ 2 * / 2) by lra.
  rewrite <- Rpower_mult.
  rewrite (Rpower_sqrt PI) by apply PI_RGT_0.
  apply Rpower_sqrt. apply sqrt_lt_R0, PI_RGT_0.
Qed.

(** C5.  With the family built for [N = 6]: [get_psi(0, 0)] is [pi^(-1/4)],
    which is strictly positive, and [get_psi(1, 0)] is exactly [0]. *)
Theorem get_psi_origin :
  exists Hr,
    make_Hr 6 = Ok Hr /\
    get_psi Hr 0 0 = Ok (Rpower PI (- (1 / 4))) /\
    0 < Rpower PI (- (1 / 4)) /\
    get_psi Hr 1 0 = Ok 0.
Proof.
  eexists. split; [apply make_Hr_spec; lia|].
  split; [|split].
  - unfold get_psi. rewrite NORM_CONST_nonneg by lia.
    rewrite (family_getitem 6 0) by lia.
    cbn [mbind result_bind as_poly]. change (Z.to_nat 0) with 0%nat.
    cbn [hermite_coeffs fact pow INR].
    f_equal. rewrite quarter_power_PI.
    unfold np.call, np.polyval. cbn [np.coeffs fold_left].
    replace (- 0 * 0 / 2) with 0 by lra. rewrite exp_0.
    replace (sqrt PI * 1 * 1) with (sqrt PI) by lra.
    unfold Rdiv. ring.
  - unfold Rpower. apply exp_pos.
  - unfold get_psi. rewrite NORM_CONST_nonneg by lia.
    rewrite (family_getitem 6 1) by lia.
    cbn [mbind result_bind as_poly].
    change (Z.to_nat 1) with 1%nat.
    cbn [hermite_coeffs]. f_equal.
    unfold np.call, np.polyval. cbn [np.coeffs fold_left]. ring.
Qed.

(** * Invalid inputs *)

Lemma get_psi_negative (Hr : list pyobj) (n : Z) (x : R) :
  (n < 0)%Z -> get_psi Hr n x = Raise ValueError.
Proof.
  intros Hn. unfold get_psi. now rewrite NORM_CONST_negative.
Qed.

Lemma get_psi_grid_negative (Hr : list pyobj) (n : Z) (xs : list R) :
  (n < 0)%Z -> get_psi_grid Hr n xs = Raise ValueError.
Proof.
  intros Hn. unfold get_psi_grid. now rewrite NORM_CONST_negative.
Qed.

Lemma get_psi_beyond (Hr : list pyobj) (n : Z) (x : R) :
  (0 <= n)%Z -> (Z.of_nat (length Hr) <= n)%Z ->
  get_psi Hr n x = Raise IndexError.
Proof.
  intros Hn HL. unfold get_psi.
  rewrite NORM_CONST_nonneg, getitem_ge by assumption. reflexivity.
Qed.

Lemma get_psi_grid_beyond (Hr : list pyobj) (n : Z) (xs : list R) :
  (0 <= n)%Z -> (Z.of_nat (length Hr) <= n)%Z ->
  get_psi_grid Hr n xs = Raise IndexError.
Proof.
  intros Hn HL. unfold get_psi_grid.
  rewrite NORM_CONST_nonneg, getitem_ge by assumption. reflexivity.
Qed.

(** C6.  Invalid inputs raise: [make_Hr] with a negative [N] raises (the
    first slot assignment is out of range), and with a generated family [Hr]
    for [N], [get_psi(n, x)] raises for every [n] outside [0..N] -- on a
    negative [n] in [math.factorial], above [N] in [Hr[n]] -- whether [x] is
    a scalar or a grid. *)
Theorem invalid_input_raises :
  (forall N, (N < 0)%Z -> make_Hr N = Raise IndexError) /\
  (forall N Hr, make_Hr N = Ok Hr ->
     forall n, (n < 0 \/ N < n)%Z ->
       (forall x, exists e, get_psi Hr n x = Raise e) /\
       (forall xs, exists e, get_psi_grid Hr n xs = Raise e)).
Proof.
  split.
  - intros N HN. apply make_Hr_raises. lia.
  - intros N Hr E n Hn. apply make_Hr_inv in E as [HN ->].
    destruct (Z_lt_ge_dec n 0) as [Neg|Pos].
    + split; intros; exists ValueError;
        [now apply get_psi_negative | now apply get_psi_grid_negative].
    + split; intros; exists IndexError;
        [apply get_psi_beyond | apply get_psi_grid_beyond];
        try rewrite family_length; lia.
Qed.

Lemma invalid_input_raises_witness :
  make_Hr (-1) = Raise IndexError /\
  exists Hr,
    make_Hr 6 = Ok Hr /\
    (exists e, get_psi Hr (-1) 0 = Raise e) /\
    (exists e, get_psi Hr 7 0 = Raise e).
Proof.
  destruct invalid_input_raises as [H1 H2].
  split; [apply H1; lia|].
  eexists. split; [apply make_Hr_spec; lia|].
  split.
  - apply (H2 6%Z _ (make_Hr_spec 6 ltac:(lia)) (-1)%Z); lia.
  - apply (H2 6%Z _ (make_Hr_spec 6 ltac:(lia)) 7%Z); lia.
Defined.

(** * Parity *)

Lemma hermite_parity (n : nat) (x : R) :
  np.polyval (hermite_coeffs n) (- x)
  = (-1) ^ n * np.polyval (hermite_coeffs n) x.
Proof.
  induction n as [| |n IH0 IH1] using pair_induction.
  - unfold np.polyval. cbn. ring.
  - unfold np.polyval. cbn. ring.
  - rewrite hermite_coeffs_SS.
    rewrite !polyval_hermite_step by (rewrite !hermite_coeffs_length; lia).
    rewrite IH0, IH1. cbn [pow]. ring.
Qed.

Lemma pow_m1_even (n : Z) :
  (0 <= n)%Z -> Z.even n = true -> (-1) ^ Z.to_nat n = 1.
Proof.
  intros Hn Ev. apply Z.even_spec in Ev as [k ->].
  rewrite Z2Nat.inj_mul by lia. change (Z.to_nat 2) with 2%nat.
  apply pow_1_even.
Qed.

Lemma pow_m1_odd (n : Z) :
  (0 <= n)%Z -> Z.odd n = true -> (-1) ^ Z.to_nat n = -1.
Proof.
  intros Hn Od. apply Z.odd_spec in Od as [k ->].
  replace (Z.to_nat (2 * k + 1)) with (S (2 * Z.to_nat k)) by lia.
  apply pow_1_odd.
Qed.

(** C10.  Parity: for [0 <= n <= N] and every real [x],
    [family[n](-x) = (-1)^n * family[n](x)] and
    [get_psi(n, -x) = (-1)^n * get_psi(n, x)]; so an even-indexed
    wavefunction is an even function and an odd-indexed one is odd. *)
Theorem get_psi_parity (N : Z) :
  (1 <= N)%Z ->
  exists Hr,
    make_Hr N = Ok Hr /\
    forall n, (0 <= n <= N)%Z ->
      exists Hn,
        Py.getitem Hr n = Ok (PyPoly Hn) /\
        forall x,
          np.call Hn (- x) = (-1) ^ Z.to_nat n * np.call Hn x /\
          exists v,
            get_psi Hr n x = Ok v /\
            get_psi Hr n (- x) = Ok ((-1) ^ Z.to_nat n * v) /\
            (Z.even n = true -> get_psi Hr n (- x) = Ok v) /\
            (Z.odd n = true -> get_psi Hr n (- x) = Ok (- v)).
Proof.
  intros HN. eexists. split; [apply make_Hr_spec; exact HN|].
  intros n Hn. eexists. split; [apply family_getitem; exact Hn|].
  intros x. unfold np.call. cbn [np.coeffs].
  split; [apply hermite_parity|].
  assert (E : get_psi ((fun i => PyPoly (Hpoly i)) <$> seq 0 (Z.to_nat (N + 1)))
                      n (- x)
              = Ok ((-1) ^ Z.to_nat n
                    * (1 / sqrt (sqrt PI * 2 ^ Z.to_nat n
                                 * INR (fact (Z.to_nat n)))
                       * np.polyval (hermite_coeffs (Z.to_nat n)) x
                       * exp (- x * x / 2)))).
  { unfold get_psi. rewrite NORM_CONST_nonneg, family_getitem by lia.
    cbn [mbind result_bind as_poly]. unfold np.call. cbn [np.coeffs].
    rewrite hermite_parity.
    replace (- - x * - x / 2) with (- x * x / 2) by lra.
    f_equal. ring. }
  eexists. split; [|split; [exact E | split]].
  - unfold get_psi. rewrite NORM_CONST_nonneg, family_getitem by lia.
    reflexivity.
  - intros Ev. rewrite E, pow_m1_even by (assumption || lia). f_equal. ring.
  - intros Od. rewrite E, pow_m1_odd by (assumption || lia). f_equal. ring.
Qed.

Lemma get_psi_parity_witness :
  exists Hr,
    make_Hr 6 = Ok Hr /\
    forall n, (0 <= n <= 6)%Z ->
      exists Hn,
        Py.getitem Hr n = Ok (PyPoly Hn) /\
        forall x,
          np.call Hn (- x) = (-1) ^ Z.to_nat n * np.call Hn x /\
          exists v,
            get_psi Hr n x = Ok v /\
            get_psi Hr n (- x) = Ok ((-1) ^ Z.to_nat n * v) /\
            (Z.even n = true -> get_psi Hr n (- x) = Ok v) /\
            (Z.odd n = true -> get_psi Hr n (- x) = Ok (- v)).
Proof. apply (get_psi_parity 6). lia. Defined.

(** * The sample grid *)

Lemma linspace_length (a b : R) (num : Z) :
  length (np.linspace a b num) = Z.to_nat num.
Proof.
  unfold np.linspace. destruct (1 <? num)%Z;
    rewrite ?length_insert, length_map, length_seqZ; reflexivity.
Qed.

Lemma linspace_first (a b : R) (num : Z) :
  (2 <= num)%Z -> head (np.linspace a b num) = Some a.
Proof.
  intros Hn. rewrite head_lookup. unfold np.linspace.
  destruct (Z.ltb_spec 1 num); [|lia].
  rewrite list_lookup_insert_ne by lia.
  rewrite list_lookup_fmap, (lookup_seqZ_lt 0 num 0) by lia.
  cbn. change (0 + Z.of_nat 0)%Z with 0%Z. f_equal. lra.
Qed.

Lemma linspace_last (a b : R) (num : Z) :
  (2 <= num)%Z -> last (np.linspace a b num) = Some b.
Proof.
  intros Hn. rewrite last_lookup, linspace_length. unfold np.linspace.
  destruct (Z.ltb_spec 1 num); [|lia].
  replace (Init.Nat.pred (Z.to_nat num)) with (Z.to_nat (num - 1)) by lia.
  apply list_lookup_insert_eq.
  rewrite length_map, length_seqZ. lia.
Qed.

Lemma linspace_bounds (a b : R) (num : Z) (t : R) :
  (2 <= num)%Z -> a <= b -> t ∈ np.linspace a b num -> a <= t <= b.
Proof.
  intros Hn Hab Hin. apply list_elem_of_lookup in Hin as [i Hi].
  unfold np.linspace in Hi. destruct (Z.ltb_spec 1 num); [|lia].
  destruct (decide (i = Z.to_nat (num - 1))) as [->|Ne].
  - rewrite list_lookup_insert_eq in Hi
      by (rewrite length_map, length_seqZ; lia).
    injection Hi as <-. lra.
  - rewrite list_lookup_insert_ne in Hi by congruence.
    rewrite list_lookup_fmap in Hi.
    destruct (seqZ 0 num !! i) as [k|] eqn:Ek; [|discriminate].
    apply lookup_seqZ in Ek as [-> Hk]. injection Hi as <-.
    assert (D : 0 < IZR (num - 1)) by (apply IZR_lt; lia).
    assert (K0 : 0 <= IZR (0 + Z.of_nat i)) by (apply IZR_le; lia).
    assert (K1 : IZR (0 + Z.of_nat i) <= IZR (num - 1)) by (apply IZR_le; lia).
    set (s := (b - a) / IZR (num - 1)).
    assert (S0 : 0 <= s).
    { unfold s. apply Rmult_le_pos; [lra|]. left. now apply Rinv_0_lt_compat. }
    assert (S1 : s * IZR (num - 1) = b - a) by (unfold s; field; lra).
    split; nra.
Qed.

Lemma turning_points_order (N : Z) :
  fst (get_turning_points N) <= snd (get_turning_points N).
Proof.
  unfold get_turning_points. cbn [fst snd].
  pose proof (sqrt_pos (2 * get_E (IZR N + 5 / 10))). lra.
Qed.

Lemma turning_point_pos (N : Z) :
  (0 <= N)%Z -> 0 < snd (get_turning_points N).
Proof.
  intros HN. unfold get_turning_points, get_E. cbn [snd].
  apply sqrt_lt_R0. apply IZR_le in HN. lra.
Qed.

Lemma turning_point_neg (N : Z) :
  fst (get_turning_points N) = - snd (get_turning_points N).
Proof. reflexivity. Qed.

Lemma x_grid_linspace (N : Z) :
  x_grid N
  = np.linspace (fst (get_turning_points N)) (snd (get_turning_points N)) 500.
Proof. reflexivity. Qed.

(** C7, as the code has it.  The grid [x] has 500 samples which start at
    [xmin], end at [xmax] and stay in between, where [(xmin, xmax)] is what
    [get_turning_points(N)] returns: the grid is not padded.  [XPAD_FRAC]
    enters only the axis limits [(zmin, zmax) = (XPAD_FRAC * xmin,
    XPAD_FRAC * xmax)], which lie strictly outside the grid. *)
Theorem x_grid_spans_turning_points (N : Z) :
  (0 <= N)%Z ->
  let xmin := fst (get_turning_points N) in
  let xmax := snd (get_turning_points N) in
  length (x_grid N) = 500%nat /\
  head (x_grid N) = Some xmin /\
  last (x_grid N) = Some xmax /\
  (forall t, t ∈ x_grid N -> xmin <= t <= xmax) /\
  xlim N = (XPAD_FRAC * xmin, XPAD_FRAC * xmax) /\
  XPAD_FRAC * xmin < xmin /\
  xmax < XPAD_FRAC * xmax.
Proof.
  intros HN xmin xmax. rewrite x_grid_linspace. fold xmin xmax.
  split; [apply linspace_length|].
  split; [apply linspace_first; lia|].
  split; [apply linspace_last; lia|].
  split; [intros t; apply linspace_bounds; [lia | apply turning_points_order]|].
  split; [reflexivity|].
  pose proof (turning_point_pos N HN) as P. fold xmax in P.
  assert (E : xmin = - xmax) by apply turning_point_neg.
  unfold XPAD_FRAC. lra.
Qed.

Lemma x_grid_spans_turning_points_witness :
  let xmin := fst (get_turning_points Notebook.N) in
  let xmax := snd (get_turning_points Notebook.N) in
  length Notebook.x = 500%nat /\
  head Notebook.x = Some xmin /\
  last Notebook.x = Some xmax /\
  (forall t, t ∈ Notebook.x -> xmin <= t <= xmax) /\
  xlim Notebook.N = (XPAD_FRAC * xmin, XPAD_FRAC * xmax) /\
  XPAD_FRAC * xmin < xmin /\
  xmax < XPAD_FRAC * xmax.
Proof.
  apply (x_grid_spans_turning_points Notebook.N). unfold Notebook.N. lia.
Defined.

(** C7, as the claim words it, fails on the notebook's own grid: neither end
    of [x] is the padded turning point. *)
Lemma x_grid_not_padded :
  head Notebook.x <> Some (XPAD_FRAC * fst (get_turning_points Notebook.N)) /\
  last Notebook.x <> Some (XPAD_FRAC * snd (get_turning_points Notebook.N)).
Proof.
  unfold Notebook.x. rewrite x_grid_linspace.
  rewrite linspace_first, linspace_last by lia.
  pose proof (turning_point_pos Notebook.N ltac:(unfold Notebook.N; lia)) as P.
  pose proof (turning_point_neg Notebook.N) as E.
  unfold XPAD_FRAC.
  generalize dependent (get_turning_points Notebook.N). intros [lo hi].
  cbn [fst snd]. intros P E.
  split; intros H; injection H as H; lra.
Qed.

(** * Further properties of the polynomial family *)

(** [make_Hr] returns exactly when [N >= 1] (with [N <= 0] one of the two
    initial assignments is out of range and raises IndexError); the list it
    returns has [N + 1] slots and none of them is still [None]. *)
Theorem make_Hr_returns_iff (N : Z) :
  ((1 <= N)%Z <-> exists Hr, make_Hr N = Ok Hr) /\
  ((N <= 0)%Z -> make_Hr N = Raise IndexError) /\
  (forall Hr, make_Hr N = Ok Hr ->
     Z.of_nat (length Hr) = (N + 1)%Z /\ forall o, o ∈ Hr -> o <> PyNone).
Proof.
  split; [split|split].
  - intros HN. eexists. now apply make_Hr_spec.
  - intros [Hr E]. now apply make_Hr_inv in E.
  - apply make_Hr_raises.
  - intros Hr E. apply make_Hr_inv in E as [HN ->]. split.
    + rewrite family_length. lia.
    + intros o Ho. apply list_elem_of_fmap in Ho as (i & -> & _). discriminate.
Qed.

Lemma make_Hr_returns_iff_witness :
  make_Hr 0 = Raise IndexError /\
  exists Hr, make_Hr 6 = Ok Hr /\
    Z.of_nat (length Hr) = 7%Z /\ forall o, o ∈ Hr -> o <> PyNone.
Proof.
  split.
  - apply (make_Hr_returns_iff 0). lia.
  - destruct (proj1 (proj1 (make_Hr_returns_iff 6)) ltac:(lia)) as [Hr E].
    exists Hr. split; [exact E|].
    apply (proj2 (proj2 (make_Hr_returns_iff 6)) Hr E).
Defined.

(** A slot of the family does not depend on [N]: the family built for [N] is
    the first [N + 1] slots of the family built for any larger [N']. *)
Theorem make_Hr_prefix (N N' : Z) :
  (1 <= N <= N')%Z ->
  exists Hr Hr',
    make_Hr N = Ok Hr /\ make_Hr N' = Ok Hr' /\
    take (Z.to_nat (N + 1)) Hr' = Hr.
Proof.
  intros HN. do 2 eexists.
  split; [apply make_Hr_spec; lia|].
  split; [apply make_Hr_spec; lia|].
  rewrite <- fmap_take, take_seq. do 2 f_equal. lia.
Qed.

Lemma make_Hr_prefix_witness :
  exists Hr Hr',
    make_Hr 3 = Ok Hr /\ make_Hr 6 = Ok Hr' /\ take (Z.to_nat (3 + 1)) Hr' = Hr.
Proof. apply (make_Hr_prefix 3 6). lia. Defined.

Lemma map_IZR_zip_sub (a b : list Z) :
  map IZR (zip_with Z.sub a b) = zip_with Rminus (map IZR a) (map IZR b).
Proof.
  revert b. induction a as [|x a IH]; intros [|y b]; cbn; try reflexivity.
  now rewrite minus_IZR, IH.
Qed.

Lemma map_IZR_scale (k : Z) (c : list Z) :
  map IZR (map (Z.mul k) c) = map (Rmult (IZR k)) (map IZR c).
Proof.
  induction c as [|x c IH]; cbn; [reflexivity|]. now rewrite mult_IZR, IH.
Qed.

Lemma hermite_step_IZR (k : Z) (c d : list Z) :
  hermite_step (IZR k) (map IZR c) (map IZR d)
  = map IZR (hermite_stepZ k c d).
Proof.
  unfold hermite_step, hermite_stepZ.
  rewrite map_IZR_zip_sub, map_app. cbn [map].
  now rewrite !map_IZR_scale.
Qed.

Lemma hermite_coeffs_IZR (n : nat) :
  hermite_coeffs n = map IZR (hermite_coeffsZ n).
Proof.
  induction n as [| |n IH0 IH1] using pair_induction; try reflexivity.
  rewrite hermite_coeffs_SS, IH0, IH1. apply hermite_step_IZR.
Qed.

(** Every coefficient of every member of the family is an integer: slot [n]
    holds the integer sequence [hermite_coeffsZ n], which can be computed. *)
Theorem make_Hr_integer_coeffs (N : Z) :
  (1 <= N)%Z ->
  exists Hr,
    make_Hr N = Ok Hr /\
    forall n, (0 <= n <= N)%Z ->
      Py.getitem Hr n
      = Ok (PyPoly (np.mk_poly1d (map IZR (hermite_coeffsZ (Z.to_nat n))))).
Proof.
  intros HN. eexists. split; [apply make_Hr_spec; exact HN|].
  intros n Hn. rewrite <- hermite_coeffs_IZR. now apply family_getitem.
Qed.

(** At the notebook's [N = 6] the last member is
    [64x^6 - 480x^4 + 720x^2 - 120]. *)
Lemma make_Hr_integer_coeffs_witness :
  exists Hr,
    make_Hr 6 = Ok Hr /\
    Py.getitem Hr 6
    = Ok (PyPoly (np.mk_poly1d
                    (map IZR [64; 0; -480; 0; 720; 0; -120]%Z))).
Proof.
  destruct (make_Hr_integer_coeffs 6 ltac:(lia)) as (Hr & E & G).
  exists Hr. split; [exact E|]. apply (G 6%Z). lia.
Defined.

(** * Further properties of the wavefunction evaluator *)

Lemma norm_const_pos (n : nat) :
  0 < 1 / sqrt (sqrt PI * 2 ^ n * INR (fact n)).
Proof.
  apply Rdiv_lt_0_compat; [lra|]. apply sqrt_lt_R0.
  repeat apply Rmult_lt_0_compat.
  - apply sqrt_lt_R0, PI_RGT_0.
  - apply pow_lt. lra.
  - apply INR_fact_lt_0.
Qed.

Lemma get_psi_value (N n : Z) (x : R) :
  (0 <= n <= N)%Z ->
  get_psi ((fun i => PyPoly (Hpoly i)) <$> seq 0 (Z.to_nat (N + 1))) n x
  = Ok (psi (Z.to_nat n) x).
Proof.
  intros Hn. unfold get_psi.
  rewrite NORM_CONST_nonneg, family_getitem by lia. reflexivity.
Qed.

Lemma psi_sign (n : nat) (x : R) :
  (psi n x = 0 <-> Hval n x = 0) /\ (0 < psi n x <-> 0 < Hval n x).
Proof.
  unfold psi. pose proof (norm_const_pos n) as C.
  pose proof (exp_pos (- x * x / 2)) as E.
  set (c := 1 / sqrt (sqrt PI * 2 ^ n * INR (fact n))) in *.
  set (e := exp (- x * x / 2)) in *.
  assert (K : 0 < c * e) by now apply Rmult_lt_0_compat.
  replace (c * Hval n x * e) with (c * e * Hval n x) by ring.
  split; split; intros H.
  - apply Rmult_integral in H as [H|H]; [lra | exact H].
  - rewrite H. ring.
  - destruct (Rle_lt_dec (Hval n x) 0) as [Le|Lt]; [|exact Lt].
    assert (c * e * Hval n x <= 0) by nra. lra.
  - now apply Rmult_lt_0_compat.
Qed.



(** Every odd state has a node at the origin: [get_psi(n, 0)] is exactly 0
    for every odd [n] in [0..N]. *)
Theorem get_psi_odd_node (N : Z) :
  (1 <= N)%Z ->
  exists Hr,
    make_Hr N = Ok Hr /\
    forall n, (0 <= n <= N)%Z -> Z.odd n = true -> get_psi Hr n 0 = Ok 0.
Proof.
  intros HN. eexists. split; [apply make_Hr_spec; exact HN|].
  intros n Hn Od. rewrite get_psi_value by assumption. f_equal.
  apply psi_sign. unfold Hval.
  pose proof (hermite_parity (Z.to_nat n) 0) as P.
  rewrite pow_m1_odd, Ropp_0 in P by (assumption || lia). lra.
Qed.

Lemma get_psi_odd_node_witness :
  exists Hr, make_Hr 6 = Ok Hr /\ get_psi Hr 5 0 = Ok 0.
Proof.
  destruct (get_psi_odd_node 6 ltac:(lia)) as (Hr & E & G).
  exists Hr. split; [exact E|]. apply (G 5%Z); [lia | reflexivity].
Defined.

(** On a grid, [get_psi] broadcasts: whatever list [Hr] and index [n] it is
    given, a returned array has one value per grid point, the value the
    scalar call returns there; and when the grid call raises, the scalar
    call raises the same exception at every point. *)
Theorem get_psi_grid_pointwise (Hr : list pyobj) (n : Z) (xs : list R) :
  (forall vs, get_psi_grid Hr n xs = Ok vs ->
     length vs = length xs /\
     forall i x, xs !! i = Some x ->
       exists v, vs !! i = Some v /\ get_psi Hr n x = Ok v) /\
  (forall e, get_psi_grid Hr n xs = Raise e ->
     forall x, get_psi Hr n x = Raise e).
Proof.
  unfold get_psi_grid, get_psi.
  destruct (NORM_CONST n) as [c|e0]; cbn [mbind result_bind].
  2:{ split; [discriminate | intros e E x; congruence]. }
  destruct (Py.getitem Hr n) as [h|e0]; cbn [mbind result_bind].
  2:{ split; [discriminate | intros e E x; congruence]. }
  destruct (as_poly h) as [p|e0]; cbn [mbind result_bind].
  2:{ split; [discriminate | intros e E x; congruence]. }
  split; [|discriminate].
  intros vs E. injection E as <-. rewrite psi_broadcast.
  split; [apply length_map|].
  intros i x Hi. eexists. split; [|reflexivity].
  rewrite list_lookup_fmap, Hi. reflexivity.
Qed.

Lemma get_psi_grid_pointwise_witness :
  (exists vs,
     get_psi_grid [PyPoly (np.mk_poly1d [1])] 0 [0; 1] = Ok vs /\
     length vs = 2%nat /\
     exists v, vs !! 1%nat = Some v
               /\ get_psi [PyPoly (np.mk_poly1d [1])] 0 1 = Ok v) /\
  get_psi [PyNone] 0 1 = Raise TypeError.
Proof.
  split.
  - eexists. split; [reflexivity|].
    destruct (proj1 (get_psi_grid_pointwise [PyPoly (np.mk_poly1d [1])] 0
                       [0; 1]) _ eq_refl) as [L G].
    split; [exact L|]. apply (G 1%nat 1). reflexivity.
  - apply (proj2 (get_psi_grid_pointwise [PyNone] 0 [0; 1]) TypeError).
    reflexivity.
Defined.

(** * Further properties of the turning points, the grid and the potential *)

Lemma turning_point_sqr (n : Z) :
  (-1 <= n)%Z ->
  snd (get_turning_points n) ^ 2 = 2 * (IZR n + 1).
Proof.
  intros Hn. unfold get_turning_points, get_E. cbn [snd].
  rewrite <- Rsqr_pow2, Rsqr_sqrt; [lra|]. apply IZR_le in Hn. lra.
Qed.

(** The interval between the turning points widens with the state, and the
    interval of state [n] strictly contains the points [+-sqrt(2 E_n)] where
    the potential equals the energy level [E_n = get_E(n)]: the grid built
    from the highest state [N] covers them for every [n <= N]. *)
Theorem turning_points_nested (n N : Z) :
  (0 <= n <= N)%Z ->
  fst (get_turning_points N) <= fst (get_turning_points n) /\
  snd (get_turning_points n) <= snd (get_turning_points N) /\
  fst (get_turning_points n) < - sqrt (2 * get_E (IZR n)) /\
  sqrt (2 * get_E (IZR n)) < snd (get_turning_points n) /\
  get_potential (sqrt (2 * get_E (IZR n))) = get_E (IZR n).
Proof.
  intros Hn.
  assert (Rn : 0 <= IZR n) by (apply IZR_le; lia).
  assert (RN : IZR n <= IZR N) by (apply IZR_le; lia).
  assert (M : sqrt (2 * get_E (IZR n + 5 / 10))
              <= sqrt (2 * get_E (IZR N + 5 / 10))).
  { apply sqrt_le_1_alt. unfold get_E. lra. }
  assert (S : sqrt (2 * get_E (IZR n)) < sqrt (2 * get_E (IZR n + 5 / 10))).
  { apply sqrt_lt_1_alt. unfold get_E. lra. }
  unfold get_turning_points. cbn [fst snd].
  repeat split; try lra.
  unfold get_potential. rewrite <- Rsqr_pow2, Rsqr_sqrt; unfold get_E; lra.
Qed.

Lemma turning_points_nested_witness :
  fst (get_turning_points 6) <= fst (get_turning_points 2) /\
  snd (get_turning_points 2) <= snd (get_turning_points 6) /\
  fst (get_turning_points 2) < - sqrt (2 * get_E 2) /\
  sqrt (2 * get_E 2) < snd (get_turning_points 2) /\
  get_potential (sqrt (2 * get_E 2)) = get_E 2.
Proof. apply (turning_points_nested 2 6). lia. Defined.

Lemma linspace_lookup (a b : R) (num : Z) (i : nat) :
  (2 <= num)%Z -> (i < Z.to_nat num)%nat ->
  np.linspace a b num !! i = Some (a + INR i * ((b - a) / IZR (num - 1))).
Proof.
  intros Hn Hi. unfold np.linspace. destruct (Z.ltb_spec 1 num); [|lia].
  assert (D : 0 < IZR (num - 1)) by (apply IZR_lt; lia).
  destruct (decide (i = Z.to_nat (num - 1))) as [->|Ne].
  - rewrite list_lookup_insert_eq by (rewrite length_map, length_seqZ; lia).
    f_equal. rewrite INR_IZR_INZ, Z2Nat.id by lia. field. lra.
  - rewrite list_lookup_insert_ne by congruence.
    rewrite list_lookup_fmap, lookup_seqZ_lt by lia.
    cbn [fmap option_fmap option_map]. rewrite Z.add_0_l, INR_IZR_INZ.
    f_equal. lra.
Qed.

(** The grid is evenly spaced, strictly increasing and symmetric about the
    origin: sample [i] is [xmin + i * (xmax - xmin) / 499], the overwritten
    last sample included; sample [499 - i] is the negative of sample [i];
    and, the number of samples being even, the origin is not a sample. *)
Theorem x_grid_even_spacing (N : Z) :
  (0 <= N)%Z ->
  let xmin := fst (get_turning_points N) in
  let xmax := snd (get_turning_points N) in
  let step := (xmax - xmin) / 499 in
  0 < step /\
  (forall i, (i < 500)%nat -> x_grid N !! i = Some (xmin + INR i * step)) /\
  (forall i j xi xj, (i < j)%nat ->
     x_grid N !! i = Some xi -> x_grid N !! j = Some xj -> xi < xj) /\
  (forall i, (i < 500)%nat ->
     exists xi, x_grid N !! i = Some xi
                /\ x_grid N !! (499 - i)%nat = Some (- xi)) /\
  0 ∉ x_grid N.
Proof.
  intros HN xmin xmax step.
  pose proof (turning_point_pos N HN) as P. fold xmax in P.
  assert (E : xmin = - xmax) by apply turning_point_neg.
  assert (S0 : 0 < step) by (unfold step; lra).
  assert (L : forall i, (i < 500)%nat ->
                        x_grid N !! i = Some (xmin + INR i * step)).
  { intros i Hi. rewrite x_grid_linspace. fold xmin xmax.
    rewrite linspace_lookup by lia. reflexivity. }
  assert (B : forall i xi, x_grid N !! i = Some xi ->
                           (i < 500)%nat /\ xi = xmin + INR i * step).
  { intros i xi Hi. assert (Lt : (i < 500)%nat).
    { apply lookup_lt_Some in Hi. rewrite x_grid_linspace, linspace_length in Hi.
      lia. }
    split; [exact Lt|]. rewrite L in Hi by exact Lt. congruence. }
  split; [exact S0|]. split; [exact L|]. split; [|split].
  - intros i j xi xj Hij Hi Hj.
    apply B in Hi as [_ ->]. apply B in Hj as [_ ->].
    apply lt_INR in Hij. nra.
  - intros i Hi. eexists. split; [apply L; exact Hi|].
    rewrite L by lia. f_equal. rewrite minus_INR by lia.
    replace (INR 499) with 499 by (rewrite INR_IZR_INZ; reflexivity).
    unfold step. rewrite E. field.
  - intros Hin. apply list_elem_of_lookup in Hin as [i Hi].
    apply B in Hi as [Lt Hi].
    assert (T : 2 * INR i = 499) by (unfold step in Hi; nra).
    assert (T' : INR (2 * i) = INR 499).
    { rewrite mult_INR. change (INR 2) with 2. rewrite T.
      rewrite INR_IZR_INZ. reflexivity. }
    apply INR_eq in T'. lia.
Qed.

Lemma x_grid_even_spacing_witness :
  let xmin := fst (get_turning_points Notebook.N) in
  let xmax := snd (get_turning_points Notebook.N) in
  let step := (xmax - xmin) / 499 in
  0 < step /\
  (forall i, (i < 500)%nat -> Notebook.x !! i = Some (xmin + INR i * step)) /\
  (forall i j xi xj, (i < j)%nat ->
     Notebook.x !! i = Some xi -> Notebook.x !! j = Some xj -> xi < xj) /\
  (forall i, (i < 500)%nat ->
     exists xi, Notebook.x !! i = Some xi
                /\ Notebook.x !! (499 - i)%nat = Some (- xi)) /\
  0 ∉ Notebook.x.
Proof.
  apply (x_grid_even_spacing Notebook.N). unfold Notebook.N. lia.
Defined.

Lemma grid_ends_and_range (N : Z) :
  length (x_grid N) = 500%nat /\
  head (x_grid N) = Some (fst (get_turning_points N)) /\
  last (x_grid N) = Some (snd (get_turning_points N)) /\
  (forall t, t ∈ x_grid N ->
             fst (get_turning_points N) <= t <= snd (get_turning_points N)).
Proof.
  rewrite x_grid_linspace.
  split; [apply linspace_length|].
  split; [apply linspace_first; lia|].
  split; [apply linspace_last; lia|].
  intros t. apply linspace_bounds; [lia | apply turning_points_order].
Qed.

Lemma get_potential_grid_map (xs : list R) :
  get_potential_grid xs = map get_potential xs.
Proof. unfold get_potential_grid. now rewrite map_map. Qed.

(** The potential curve on the grid: [V] has one value per sample,
    [get_potential] of it; it stays between 0 and [N + 1] and takes the value
    [N + 1] at both ends of the grid, which is [get_E(N) + 0.5], the value
    the notebook later uses as [ymax]. *)
Theorem potential_on_grid (N : Z) :
  (0 <= N)%Z ->
  let V := get_potential_grid (x_grid N) in
  length V = 500%nat /\
  (forall i x, x_grid N !! i = Some x -> V !! i = Some (get_potential x)) /\
  head V = Some (IZR N + 1) /\
  last V = Some (IZR N + 1) /\
  (forall v, v ∈ V -> 0 <= v <= IZR N + 1) /\
  IZR N + 1 = get_E (IZR N) + 5 / 10.
Proof.
  intros HN V. unfold V. rewrite get_potential_grid_map.
  pose proof (turning_point_sqr N ltac:(lia)) as Q.
  pose proof (turning_point_neg N) as E.
  pose proof (turning_point_pos N HN) as P.
  destruct (grid_ends_and_range N) as (L & Hd & La & B).
  split; [now rewrite length_map|].
  split; [intros i x Hi; now rewrite list_lookup_fmap, Hi|].
  split; [|split; [|split]].
  - rewrite head_lookup, list_lookup_fmap, <- head_lookup, Hd.
    cbn [fmap option_fmap option_map].
    f_equal. unfold get_potential. rewrite E. nra.
  - rewrite last_lookup, length_map, list_lookup_fmap, <- last_lookup, La.
    cbn [fmap option_fmap option_map].
    f_equal. unfold get_potential. nra.
  - intros v Hv. apply list_elem_of_fmap in Hv as (t & -> & Ht).
    apply B in Ht. unfold get_potential. nra.
  - unfold get_E. lra.
Qed.

Lemma potential_on_grid_witness :
  let V := get_potential_grid Notebook.x in
  length V = 500%nat /\
  (forall i x, Notebook.x !! i = Some x -> V !! i = Some (get_potential x)) /\
  head V = Some (IZR Notebook.N + 1) /\
  last V = Some (IZR Notebook.N + 1) /\
  (forall v, v ∈ V -> 0 <= v <= IZR Notebook.N + 1) /\
  IZR Notebook.N + 1 = get_E (IZR Notebook.N) + 5 / 10.
Proof.
  apply (potential_on_grid Notebook.N). unfold Notebook.N. lia.
Defined.

(** * The figure *)

Lemma get_psi_grid_value (N n : Z) (xs : list R) :
  (0 <= n <= N)%Z ->
  get_psi_grid ((fun i => PyPoly (Hpoly i)) <$> seq 0 (Z.to_nat (N + 1))) n xs
  = Ok (map (psi (Z.to_nat n)) xs).
Proof.
  intros Hn.
  rewrite (get_psi_grid_map _ n xs _ _ (NORM_CONST_nonneg n ltac:(lia))
             (family_getitem N n Hn)).
  reflexivity.
Qed.

Lemma state_calls_length (b : bool) (N n : Z) (psi_n : list R) :
  length (state_calls b N n psi_n) = 5%nat.
Proof. unfold state_calls, get_turning_points. destruct b; reflexivity. Qed.

(** What every call of the loop satisfies, the calls of the whole loop
    satisfy; the loop returns, one iteration per state [0..N], and leaves
    [E_n] bound to [get_E(N)]. *)
Lemma plot_states_inv (b : bool) (N : Z) (P : draw -> Prop) :
  (1 <= N)%Z ->
  P (Plot (x_grid N) (get_potential_grid (x_grid N)) "k" (Some (15 / 10))) ->
  (forall n, (0 <= n <= N)%Z ->
     Forall P (state_calls b N n (map (psi (Z.to_nat n)) (x_grid N)))) ->
  exists calls,
    plot_states b N ((fun i => PyPoly (Hpoly i)) <$> seq 0 (Z.to_nat (N + 1)))
    = Ok (calls, Some (get_E (IZR N))) /\
    Forall P calls /\
    length calls = Z.to_nat (5 * N + 6).
Proof.
  intros HN P0 Pn. unfold plot_states.
  destruct (for_range_inv
              (fun n st => Forall P st.1 /\
                           length st.1 = Z.to_nat (5 * n + 1) /\
                           ((0 < n)%Z -> st.2 = Some (get_E (IZR (n - 1)))))
              (plot_state_body b N
                 ((fun i => PyPoly (Hpoly i)) <$> seq 0 (Z.to_nat (N + 1))))
              (Z.to_nat (N + 1)) 0 (N + 1)
              ([Plot (x_grid N) (get_potential_grid (x_grid N)) "k"
                     (Some (15 / 10))], None))
    as ([calls e] & E & F & L & B).
  - lia.
  - cbn [fst snd]. split; [now constructor|]. split; [reflexivity | lia].
  - intros n [cs e] Hn (F & L & _). cbn [fst snd] in *.
    unfold plot_state_body. rewrite get_psi_grid_value by lia.
    cbn [mbind result_bind fst snd].
    eexists. split; [reflexivity|]. cbn [fst snd]. split; [|split].
    + apply Forall_app. split; [exact F | apply Pn; lia].
    + rewrite length_app, state_calls_length, L. lia.
    + intros _. do 3 f_equal. lia.
  - cbn [fst snd] in *. exists calls. rewrite E.
    rewrite B by lia. replace (N + 1 - 1)%Z with N by lia.
    split; [reflexivity|]. split; [exact F|]. rewrite L. f_equal. lia.
Qed.



Lemma lt0_squares (f : list R) :
  lt0 (map (fun t => t ^ 2) f) = replicate (length f) false.
Proof.
  induction f as [|t f IH]; [reflexivity|].
  cbn [map lt0 length replicate]. fold (lt0 (map (fun t => t ^ 2) f)).
  rewrite IH. destruct (Rlt_dec (t ^ 2) 0) as [Lt|_]; [|reflexivity].
  pose proof (pow2_ge_0 t). lra.
Qed.

Lemma curve_above (f : list R) (s y0 : R) :
  0 <= s ->
  Forall (fun y => y0 <= y)
         (map (fun t => t + y0) (map (fun t => t * s) (map (fun t => t ^ 2) f))).
Proof.
  intros Hs. rewrite !Forall_map. apply Forall_true. intros t.
  pose proof (pow2_ge_0 t). nra.
Qed.

(** Splits [Forall P] over the five calls of one loop iteration. *)
Ltac five_calls :=
  apply Forall_cons_2; [|apply Forall_cons_2; [|apply Forall_cons_2;
    [|apply Forall_cons_2; [|apply Forall_cons_2; [|apply Forall_nil_2]]]]].

(** [plot_func] on a squared array (the density [psi_n**2]): the curve never
    goes below [yoffset] when the scaling is not negative, and the mask
    [f < 0.] of the second [fill_between] is false everywhere, so that call
    fills nothing. *)
Theorem plot_func_squared (x : list R) (color : string) (psi_n : list R)
        (scaling yoffset : R) :
  0 <= scaling ->
  exists ys,
    plot_func x color (map (fun t => t ^ 2) psi_n) scaling yoffset
    = [ Plot x ys color None;
        FillBetween x ys yoffset (gt0 (map (fun t => t ^ 2) psi_n)) color
                    (5 / 10);
        FillBetween x ys yoffset (replicate (length psi_n) false) color
                    (5 / 10) ] /\
    length ys = length psi_n /\
    Forall (fun y => yoffset <= y) ys.
Proof.
  intros Hs. eexists. unfold plot_func. rewrite lt0_squares.
  split; [reflexivity|]. split; [now rewrite !length_map|].
  now apply curve_above.
Qed.

Lemma plot_func_squared_witness :
  exists ys,
    plot_func [0; 1] "navy" (map (fun t => t ^ 2) [-1; 2]) 1 3
    = [ Plot [0; 1] ys "navy" None;
        FillBetween [0; 1] ys 3 (gt0 (map (fun t => t ^ 2) [-1; 2])) "navy"
                    (5 / 10);
        FillBetween [0; 1] ys 3 (replicate 2 false) "navy" (5 / 10) ] /\
    length ys = 2%nat /\
    Forall (fun y => 3 <= y) ys.
Proof. apply (plot_func_squared [0; 1] "navy" [-1; 2] 1 3). lra. Defined.

(** In density mode ([PLOT_PROB = True]) no filled region of the figure
    reaches below its baseline: in every [fill_between] of the plotting loop
    the curve is at or above the energy level it is offset by. *)
Theorem figure_density_above (N : Z) :
  (1 <= N)%Z ->
  exists Hr calls,
    make_Hr N = Ok Hr /\
    plot_states true N Hr = Ok (calls, Some (get_E (IZR N))) /\
    Forall fill_above calls.
Proof.
  intros HN.
  destruct (plot_states_inv true N fill_above HN I) as (calls & E & F & _).
  { intros n Hn. unfold state_calls, get_turning_points, plot_func.
    cbn [app]. assert (S : 0 <= SCALING * (15 / 10)) by (unfold SCALING; lra).
    five_calls; try exact I; now apply curve_above. }
  eexists. exists calls. split; [apply make_Hr_spec; exact HN|].
  split; [exact E | exact F].
Qed.

Lemma figure_density_above_witness :
  exists Hr calls,
    make_Hr 6 = Ok Hr /\
    plot_states true 6 Hr = Ok (calls, Some (get_E 6)) /\
    Forall fill_above calls.
Proof. apply (figure_density_above 6). lia. Defined.

(** In either mode every array handed to [ax.plot] and [ax.fill_between]
    -- abscissae, ordinates and masks -- has one entry per grid sample,
    500 of them. *)
Theorem figure_shapes (PLOT_PROB : bool) (N : Z) :
  (1 <= N)%Z ->
  exists Hr calls,
    make_Hr N = Ok Hr /\
    plot_states PLOT_PROB N Hr = Ok (calls, Some (get_E (IZR N))) /\
    Forall (shape_ok 500) calls.
Proof.
  intros HN.
  destruct (grid_ends_and_range N) as (L & _).
  destruct (plot_states_inv PLOT_PROB N (shape_ok 500) HN) as (calls & E & F & _).
  { cbn [shape_ok]. unfold get_potential_grid. rewrite !length_map. auto. }
  { intros n Hn. unfold state_calls, get_turning_points, plot_func, gt0, lt0.
    destruct PLOT_PROB; cbn [app]; five_calls; try exact I;
      cbn [shape_ok]; rewrite !length_map; auto. }
  eexists. exists calls. split; [apply make_Hr_spec; exact HN|].
  split; [exact E | exact F].
Qed.

Lemma figure_shapes_witness :
  exists Hr calls,
    make_Hr 6 = Ok Hr /\
    plot_states false 6 Hr = Ok (calls, Some (get_E 6)) /\
    Forall (shape_ok 500) calls.
Proof. apply (figure_shapes false 6). lia. Defined.

(** In either mode every label of the plotting loop is anchored strictly
    inside the axis limits the notebook sets afterwards: between [zmin] and
    [zmax] horizontally (the labels sit 0.2 outside the grid, the limits
    are padded further), and between 0 and [ymax = N + 1] vertically. *)
Theorem figure_labels_inside (PLOT_PROB : bool) (N : Z) :
  (1 <= N)%Z ->
  exists Hr calls,
    make_Hr N = Ok Hr /\
    plot_states PLOT_PROB N Hr = Ok (calls, Some (get_E (IZR N))) /\
    Forall (text_inside (xlim N) (0, get_E (IZR N) + 5 / 10)) calls.
Proof.
  intros HN.
  pose proof (turning_point_sqr N ltac:(lia)) as Q.
  pose proof (turning_point_pos N ltac:(lia)) as P.
  assert (RN : 1 <= IZR N) by (apply IZR_le; lia).
  assert (X : 2 <= snd (get_turning_points N)) by nra.
  destruct (plot_states_inv PLOT_PROB N
              (text_inside (xlim N) (0, get_E (IZR N) + 5 / 10)) HN I)
    as (calls & E & F & _).
  { intros n Hn.
    assert (R0 : 0 <= IZR n) by (apply IZR_le; lia).
    assert (R1 : IZR n <= IZR N) by (apply IZR_le; lia).
    unfold state_calls, xlim, plot_func. revert X.
    unfold get_turning_points. cbn [fst snd]. intros X.
    unfold XPAD_FRAC. unfold get_E in *.
    destruct PLOT_PROB; cbn [app]; five_calls; try exact I;
      cbn [text_inside fst snd]; lra. }
  eexists. exists calls. split; [apply make_Hr_spec; exact HN|].
  split; [exact E | exact F].
Qed.

Lemma figure_labels_inside_witness :
  exists Hr calls,
    make_Hr 6 = Ok Hr /\
    plot_states true 6 Hr = Ok (calls, Some (get_E 6)) /\
    Forall (text_inside (xlim 6) (0, get_E 6 + 5 / 10)) calls.
Proof. apply (figure_labels_inside true 6). lia. Defined.

(** * The wavefunctions solve the oscillator equation *)

Lemma Hval_0 (x : R) : Hval 0 x = 1.
Proof. unfold Hval, np.polyval. cbn. ring. Qed.

Lemma Hval_1 (x : R) : Hval 1 x = 2 * x.
Proof. unfold Hval, np.polyval. cbn. ring. Qed.

Lemma Hval_SS (n : nat) (x : R) :
  Hval (S (S n)) x = 2 * x * Hval (S n) x - 2 * INR (S n) * Hval n x.
Proof.
  unfold Hval. rewrite hermite_coeffs_SS.
  rewrite polyval_hermite_step by (rewrite !hermite_coeffs_length; lia).
  now rewrite mult_IZR, <- INR_IZR_INZ.
Qed.

(** [H_(n+1) = 2x H_n - H_n']. *)
Lemma Hval_S (n : nat) (x : R) :
  Hval (S n) x = 2 * x * Hval n x - dHval n x.
Proof.
  destruct n as [|n].
  - rewrite Hval_1, Hval_0. cbn [dHval]. ring.
  - rewrite Hval_SS. reflexivity.
Qed.

Lemma derivable_pt_lim_step (A B : R -> R) (k x a b : R) :
  derivable_pt_lim A x a -> derivable_pt_lim B x b ->
  derivable_pt_lim (fun t => 2 * t * A t - k * B t) x
                   (2 * A x + 2 * x * a - k * b).
Proof.
  intros HA HB.
  apply (derivable_pt_lim_ext
           ((mult_real_fct 2 id * A) - mult_real_fct k B)%F).
  { intros z. reflexivity. }
  replace (2 * A x + 2 * x * a - k * b)
    with (2 * 1 * A x + mult_real_fct 2 id x * a - k * b)
    by (unfold mult_real_fct, id; ring).
  apply derivable_pt_lim_minus.
  - apply derivable_pt_lim_mult; [|exact HA].
    apply derivable_pt_lim_scal, derivable_pt_lim_id.
  - now apply derivable_pt_lim_scal.
Qed.

(** [H_n' = 2n H_(n-1)]. *)
Lemma Hval_derivative (n : nat) (x : R) :
  derivable_pt_lim (Hval n) x (dHval n x).
Proof.
  revert x. induction n as [| |n IH0 IH1] using pair_induction; intros x.
  - apply (derivable_pt_lim_ext (fct_cte 1)).
    + intros z. now rewrite Hval_0.
    + apply derivable_pt_lim_const.
  - apply (derivable_pt_lim_ext (mult_real_fct 2 id)).
    + intros z. now rewrite Hval_1.
    + replace (dHval 1 x) with (2 * 1)
        by (cbn [dHval INR]; rewrite Hval_0; ring).
      apply derivable_pt_lim_scal, derivable_pt_lim_id.
  - apply (derivable_pt_lim_ext
             (fun t => 2 * t * Hval (S n) t - 2 * INR (S n) * Hval n t)).
    + intros z. now rewrite Hval_SS.
    + replace (dHval (S (S n)) x)
        with (2 * Hval (S n) x + 2 * x * dHval (S n) x
              - 2 * INR (S n) * dHval n x).
      * apply derivable_pt_lim_step; [apply IH1 | apply IH0].
      * cbn [dHval]. rewrite (Hval_S n x), (S_INR (S n)). ring.
Qed.

Lemma dHval_derivative (n : nat) (x : R) :
  derivable_pt_lim (dHval n) x (d2Hval n x).
Proof.
  destruct n as [|n].
  - apply (derivable_pt_lim_const 0).
  - apply (derivable_pt_lim_scal (Hval n) (2 * INR (S n))), Hval_derivative.
Qed.

(** Hermite's equation [H'' - 2x H' + 2n H = 0]. *)
Lemma hermite_equation (n : nat) (x : R) :
  d2Hval n x - 2 * x * dHval n x + 2 * INR n * Hval n x = 0.
Proof.
  destruct n as [|n].
  - cbn [d2Hval dHval INR]. ring.
  - cbn [d2Hval dHval]. rewrite (Hval_S n x). ring.
Qed.

Lemma gauss_derivative (x : R) : derivable_pt_lim gauss x (- x * gauss x).
Proof.
  apply (derivable_pt_lim_ext
           (comp exp (mult_real_fct (- (1 / 2)) (id * id)%F))).
  { intros z. unfold gauss, comp, mult_real_fct, mult_fct, id. f_equal. field. }
  replace (- x * gauss x)
    with (exp (mult_real_fct (- (1 / 2)) (id * id)%F x)
          * (- (1 / 2) * (1 * id x + id x * 1))).
  - apply derivable_pt_lim_comp; [|apply derivable_pt_lim_exp].
    apply derivable_pt_lim_scal.
    apply derivable_pt_lim_mult; apply derivable_pt_lim_id.
  - unfold gauss, mult_real_fct, mult_fct, id.
    replace (- (1 / 2) * (x * x)) with (- x * x / 2) by field. field.
Qed.

(** The derivative of [t |-> c * u(t) * gauss(t)]. *)
Lemma derivable_pt_lim_envelope (c : R) (u : R -> R) (x du : R) :
  derivable_pt_lim u x du ->
  derivable_pt_lim (fun t => c * u t * gauss t) x
                   (c * (du - x * u x) * gauss x).
Proof.
  intros Hu.
  apply (derivable_pt_lim_ext (mult_real_fct c (u * gauss)%F)).
  { intros z. unfold mult_real_fct, mult_fct. ring. }
  replace (c * (du - x * u x) * gauss x)
    with (c * (du * gauss x + u x * (- x * gauss x))) by ring.
  apply derivable_pt_lim_scal.
  apply derivable_pt_lim_mult; [exact Hu | apply gauss_derivative].
Qed.

Lemma psi_derivative (n : nat) (x : R) :
  derivable_pt_lim (psi n) x (dpsi n x).
Proof.
  apply (derivable_pt_lim_envelope _ (Hval n)), Hval_derivative.
Qed.

Lemma dpsi_derivative (n : nat) (x : R) :
  derivable_pt_lim (dpsi n) x ((x ^ 2 - 2 * get_E (INR n)) * psi n x).
Proof.
  pose proof (hermite_equation n x) as HE.
  set (c := 1 / sqrt (sqrt PI * 2 ^ n * INR (fact n))).
  replace ((x ^ 2 - 2 * get_E (INR n)) * psi n x)
    with (c * ((d2Hval n x - (1 * Hval n x + x * dHval n x))
               - x * (dHval n x - x * Hval n x)) * gauss x).
  - apply (derivable_pt_lim_envelope c (fun t => dHval n t - t * Hval n t)).
    apply (derivable_pt_lim_minus (dHval n) (id * Hval n)%F).
    + apply dHval_derivative.
    + apply derivable_pt_lim_mult;
        [apply derivable_pt_lim_id | apply Hval_derivative].
  - unfold psi, get_E. fold c. fold (gauss x).
    replace (d2Hval n x) with (2 * x * dHval n x - 2 * INR n * Hval n x)
      by lra.
    clearbody c. field.
Qed.

(** The derivative of a Hermite polynomial is a multiple of the previous
    one: for [1 <= n <= N] the function [x |-> family[n](x)] has the
    derivative [2n * family[n-1](x)] at every [x]. *)
Theorem make_Hr_derivative (N : Z) :
  (1 <= N)%Z ->
  exists Hr,
    make_Hr N = Ok Hr /\
    forall n, (1 <= n <= N)%Z ->
      exists Hn Hm,
        Py.getitem Hr n = Ok (PyPoly Hn) /\
        Py.getitem Hr (n - 1) = Ok (PyPoly Hm) /\
        forall x, derivable_pt_lim (np.call Hn) x (2 * IZR n * np.call Hm x).
Proof.
  intros HN. eexists. split; [apply make_Hr_spec; exact HN|].
  intros n Hn. do 2 eexists.
  split; [apply family_getitem; lia|].
  split; [apply family_getitem; lia|].
  intros x. pose proof (Hval_derivative (Z.to_nat n) x) as D.
  replace (Z.to_nat n) with (S (Z.to_nat (n - 1))) in D at 2 by lia.
  cbn [dHval] in D.
  replace (INR (S (Z.to_nat (n - 1)))) with (IZR n) in D
    by (rewrite INR_IZR_INZ; f_equal; lia).
  exact D.
Qed.

Lemma make_Hr_derivative_witness :
  exists Hr,
    make_Hr 6 = Ok Hr /\
    forall n, (1 <= n <= 6)%Z ->
      exists Hn Hm,
        Py.getitem Hr n = Ok (PyPoly Hn) /\
        Py.getitem Hr (n - 1) = Ok (PyPoly Hm) /\
        forall x, derivable_pt_lim (np.call Hn) x (2 * IZR n * np.call Hm x).
Proof. apply (make_Hr_derivative 6). lia. Defined.

(** The wavefunctions solve the equation the notebook derives,
    [psi'' = (x^2 - 2E) psi], with the energy level the notebook pairs them
    with: for [0 <= n <= N] the function [x |-> get_psi(n, x)] is twice
    differentiable and its second derivative at [x] is
    [(x^2 - 2 get_E(n)) * get_psi(n, x)]. *)
Theorem get_psi_schrodinger (N : Z) :
  (1 <= N)%Z ->
  exists Hr,
    make_Hr N = Ok Hr /\
    forall n, (0 <= n <= N)%Z ->
      exists f f' : R -> R,
        (forall x, get_psi Hr n x = Ok (f x)) /\
        (forall x, derivable_pt_lim f x (f' x)) /\
        (forall x, derivable_pt_lim f' x
                     ((x ^ 2 - 2 * get_E (IZR n)) * f x)).
Proof.
  intros HN. eexists. split; [apply make_Hr_spec; exact HN|].
  intros n Hn. exists (psi (Z.to_nat n)), (dpsi (Z.to_nat n)).
  split; [intros x; now apply get_psi_value|].
  split; [intros x; apply psi_derivative|].
  intros x. pose proof (dpsi_derivative (Z.to_nat n) x) as D.
  rewrite INR_IZR_INZ, Z2Nat.id in D by lia. exact D.
Qed.

Lemma get_psi_schrodinger_witness :
  exists Hr,
    make_Hr 6 = Ok Hr /\
    forall n, (0 <= n <= 6)%Z ->
      exists f f' : R -> R,
        (forall x, get_psi Hr n x = Ok (f x)) /\
        (forall x, derivable_pt_lim f x (f' x)) /\
        (forall x, derivable_pt_lim f' x
                     ((x ^ 2 - 2 * get_E (IZR n)) * f x)).
Proof. apply (get_psi_schrodinger 6). lia. Defined.
